(** * Obstacle-aware path router ([_sandbox_/pathfinder_final.py])

    A shallow embedding of the segment-intersection predicate [overlapping],
    the obstacle clearance test [no_obstacles], the direct/elbow router
    [getpts_simple], the grid search [getpts_astar] and the route composer
    [make], followed by the properties established about them.

    Coordinates are numpy floating point numbers in the source.  They are
    modelled here by exact rationals ([Q]); the comparisons [==], [<=], [<]
    and [>] of the source are numeric, hence modelled by [Qeq_bool] and
    [Qle_bool].  Module [Binary64] repeats the kernel, the clearance test
    and the two routers on binary64 numbers; it serves to run the code on
    inputs where rounding decides the outcome.

    Two smaller embeddings follow the router: the bounding-box functions of
    the GDS renderer ([renderers/renderer_gds/gds_renderer.py]:
    [check_bounding_box_scale], [get_bounds], [inclusive_bound],
    [scale_max_bounds], [check_qcomps]) and the lookup of the source model
    of the library delegate
    ([_gui/widgets/qlibrary_display/delegate_qlibrary.py]:
    [get_source_model]). *)

From Stdlib Require Import Arith QArith Qabs Qminmax Lqa Lia.
From Stdlib Require Import List Bool SetoidList Morphisms Permutation.
From Stdlib Require String Floats.
Import ListNotations.

Open Scope Q_scope.

(** ** Points and vectors *)

(** A numpy array of two coordinates. *)
Definition point : Type := (Q * Q)%type.

(** Numeric equality of two points (equality of numpy arrays, elementwise). *)
Definition pt_eq (p q : point) : Prop := fst p == fst q /\ snd p == snd q.

Definition pt_eqb (p q : point) : bool :=
  Qeq_bool (fst p) (fst q) && Qeq_bool (snd p) (snd q).

(** [p + q], [p - q], [k * p] and [np.dot p q] on arrays of length two. *)
Definition padd (p q : point) : point := (fst p + fst q, snd p + snd q).
Definition psub (p q : point) : point := (fst p - fst q, snd p - snd q).
Definition pscale (k : Q) (p : point) : point := (k * fst p, k * snd p).
Definition dot (p q : point) : Q := fst p * fst q + snd p * snd q.

(** [sum(abs(p - q))], the Manhattan distance. *)
Definition manhattan (p q : point) : Q :=
  Qabs (fst p - fst q) + Qabs (snd p - snd q).

(** [a > b] and [a < b] on numbers. *)
Definition Qgt_bool (a b : Q) : bool := negb (Qle_bool a b).
Definition Qlt_bool (a b : Q) : bool := negb (Qle_bool b a).

(** The chained comparison [lo <= x <= hi]. *)
Definition between (lo x hi : Q) : bool := Qle_bool lo x && Qle_bool x hi.

(** ** Geometry kernel: [overlapping] *)

Module Geometry.

(** [overlapping a b c d]: whether segment [ab] intersects or overlaps
    segment [cd].  Division is the total division of [Q]; which divisors
    can be zero is the subject of [overlapping_checked] below. *)
Definition overlapping (a b c d : point) : bool :=
  let '(x0_start, y0_start) := a in
  let '(x0_end, y0_end) := b in
  let '(x1_start, y1_start) := c in
  let '(x1_end, y1_end) := d in
  if Qeq_bool x0_start x0_end && Qeq_bool x1_start x1_end then
    if Qeq_bool x0_end x1_start then
      negb (Qgt_bool (Qmin y0_start y0_end) (Qmax y1_start y1_end)
            || Qgt_bool (Qmin y1_start y1_end) (Qmax y0_start y1_end))
    else false
  else if Qeq_bool x0_start x0_end || Qeq_bool x1_start x1_end then
    let '(x0_start, x0_end, x1_start, x1_end, y0_start, y0_end, y1_start, y1_end) :=
      if Qeq_bool x1_start x1_end
      then (x1_start, x1_end, x0_start, x0_end, y1_start, y1_end, y0_start, y0_end)
      else (x0_start, x0_end, x1_start, x1_end, y0_start, y0_end, y1_start, y1_end) in
    let m := (y1_end - y1_start) / (x1_end - x1_start) in
    let b := (x1_end * y1_start - x1_start * y1_end) / (x1_end - x1_start) in
    if between (Qmin x1_start x1_end) x0_start (Qmax x1_start x1_end) then
      if between (Qmin y0_start y0_end) (m * x0_start + b) (Qmax y0_start y0_end)
      then true else false
    else false
  else
    let b0 := (y0_start * x0_end - y0_end * x0_start) / (x0_end - x0_start) in
    let b1 := (y1_start * x1_end - y1_end * x1_start) / (x1_end - x1_start) in
    if Qeq_bool ((x1_end - x1_start) * (y0_end - y0_start))
                ((x0_end - x0_start) * (y1_end - y1_start)) then
      if Qeq_bool b0 b1 then
        negb (Qgt_bool (Qmin x0_start x0_end) (Qmax x1_start x1_end)
              || Qgt_bool (Qmin x1_start x1_end) (Qmax x0_start x1_end))
      else false
    else
      let m0 := (y0_end - y0_start) / (x0_end - x0_start) in
      let m1 := (y1_end - y1_start) / (x1_end - x1_start) in
      let x_intersect := (b1 - b0) / (m0 - m1) in
      let y_intersect := m0 * x_intersect + b0 in
      if between (Qmin x0_start x0_end) x_intersect (Qmax x0_start x0_end) then
        if between (Qmin y0_start y0_end) y_intersect (Qmax y0_start y0_end) then
          if between (Qmin x1_start x1_end) x_intersect (Qmax x1_start x1_end) then
            if between (Qmin y1_start y1_end) y_intersect (Qmax y1_start y1_end)
            then true else false
          else false
        else false
      else false.

(** Division that fails on a zero divisor. *)
Definition checked_div (n d : Q) : option Q :=
  if Qeq_bool d 0 then None else Some (n / d).

Definition bind {A B : Type} (m : option A) (f : A -> option B) : option B :=
  match m with Some a => f a | None => None end.

Notation "x <- m ;; k" := (bind m (fun x => k))
  (at level 61, m at next level, right associativity).

(** The same function with every division of the source guarded: [None]
    is returned as soon as a division meets a zero divisor.  The divisions
    are performed in the order of the source. *)
Definition overlapping_checked (a b c d : point) : option bool :=
  let '(x0_start, y0_start) := a in
  let '(x0_end, y0_end) := b in
  let '(x1_start, y1_start) := c in
  let '(x1_end, y1_end) := d in
  if Qeq_bool x0_start x0_end && Qeq_bool x1_start x1_end then
    if Qeq_bool x0_end x1_start then
      Some (negb (Qgt_bool (Qmin y0_start y0_end) (Qmax y1_start y1_end)
                  || Qgt_bool (Qmin y1_start y1_end) (Qmax y0_start y1_end)))
    else Some false
  else if Qeq_bool x0_start x0_end || Qeq_bool x1_start x1_end then
    let '(x0_start, x0_end, x1_start, x1_end, y0_start, y0_end, y1_start, y1_end) :=
      if Qeq_bool x1_start x1_end
      then (x1_start, x1_end, x0_start, x0_end, y1_start, y1_end, y0_start, y0_end)
      else (x0_start, x0_end, x1_start, x1_end, y0_start, y0_end, y1_start, y1_end) in
    m <- checked_div (y1_end - y1_start) (x1_end - x1_start) ;;
    b <- checked_div (x1_end * y1_start - x1_start * y1_end) (x1_end - x1_start) ;;
    if between (Qmin x1_start x1_end) x0_start (Qmax x1_start x1_end) then
      if between (Qmin y0_start y0_end) (m * x0_start + b) (Qmax y0_start y0_end)
      then Some true else Some false
    else Some false
  else
    b0 <- checked_div (y0_start * x0_end - y0_end * x0_start) (x0_end - x0_start) ;;
    b1 <- checked_div (y1_start * x1_end - y1_end * x1_start) (x1_end - x1_start) ;;
    if Qeq_bool ((x1_end - x1_start) * (y0_end - y0_start))
                ((x0_end - x0_start) * (y1_end - y1_start)) then
      if Qeq_bool b0 b1 then
        Some (negb (Qgt_bool (Qmin x0_start x0_end) (Qmax x1_start x1_end)
                    || Qgt_bool (Qmin x1_start x1_end) (Qmax x0_start x1_end)))
      else Some false
    else
      m0 <- checked_div (y0_end - y0_start) (x0_end - x0_start) ;;
      m1 <- checked_div (y1_end - y1_start) (x1_end - x1_start) ;;
      x_intersect <- checked_div (b1 - b0) (m0 - m1) ;;
      let y_intersect := m0 * x_intersect + b0 in
      if between (Qmin x0_start x0_end) x_intersect (Qmax x0_start x0_end) then
        if between (Qmin y0_start y0_end) y_intersect (Qmax y0_start y0_end) then
          if between (Qmin x1_start x1_end) x_intersect (Qmax x1_start x1_end) then
            if between (Qmin y1_start y1_end) y_intersect (Qmax y1_start y1_end)
            then Some true else Some false
          else Some false
        else Some false
      else Some false.

End Geometry.

Import Geometry.

(** ** Obstacle index: [no_obstacles] *)

(** The bounding box [(xmin, ymin, xmax, ymax)] that [qgeometry_bounds]
    returns for one component of the design. *)
Definition bounds : Type := (Q * Q * Q * Q)%type.

(** A candidate segment [[p0, p1]]. *)
Definition segment : Type := (point * point)%type.

Module Router.

(** The four boundary segments [(p,q)], [(p,r)], [(r,s)], [(q,s)] of a
    bounding box. *)
Definition box_edges (bx : bounds) : list segment :=
  let '(xmin, ymin, xmax, ymax) := bx in
  let p := (xmin, ymin) in
  let q := (xmin, ymax) in
  let r := (xmax, ymin) in
  let s := (xmax, ymax) in
  [(p, q); (p, r); (r, s); (q, s)].

(** [any(overlapping(segment[0], segment[1], k, l) for k, l in ...)]. *)
Definition hits_box (seg : segment) (bx : bounds) : bool :=
  existsb (fun kl => overlapping (fst seg) (snd seg) (fst kl) (snd kl))
          (box_edges bx).

(** [no_obstacles]: no bounding box of the design meets the segment.  The
    design is the list of the bounding boxes of its components. *)
Definition no_obstacles (design : list bounds) (seg : segment) : bool :=
  forallb (fun bx => negb (hits_box seg bx)) design.

(** ** Direct/elbow router: [getpts_simple] *)

Definition getpts_simple (design : list bounds)
    (start_direction start end_ : point) : list point :=
  if Qle_bool 0 (dot start_direction (psub end_ start)) then
    if (Qeq_bool (fst start) (fst end_) || Qeq_bool (snd start) (snd end_))
       && no_obstacles design (start, end_)
    then [start; end_]
    else
      let newpt1 := (fst start, snd end_) in
      if no_obstacles design (start, newpt1) && no_obstacles design (newpt1, end_)
      then [start; newpt1; end_]
      else
        let newpt2 := (fst end_, snd start) in
        if no_obstacles design (start, newpt2) && no_obstacles design (newpt2, end_)
        then [start; newpt2; end_]
        else
          let offsetx := Qabs (fst start - fst end_) in
          let offsety := Qabs (snd start - snd end_) in
          let '(newpt3, newpt4) :=
            if Qle_bool offsety offsetx
            then (((fst start + fst end_) / 2, snd start),
                  ((fst start + fst end_) / 2, snd end_))
            else ((fst start, (snd start + snd end_) / 2),
                  (fst end_, (snd start + snd end_) / 2)) in
          if no_obstacles design (start, newpt3) then
            if no_obstacles design (newpt3, newpt4) then
              if no_obstacles design (newpt4, end_)
              then [start; newpt3; newpt4; end_]
              else []
            else []
          else []
  else [].

(** ** Grid search: [getpts_astar] *)

(** Outcome of a computation that may loop: the [while] loop of the search
    is run for at most [fuel] iterations. *)
Inductive outcome (A : Type) : Type :=
| Returned (a : A)   (* the function returned [a] *)
| KeyError           (* a dictionary lookup found no entry *)
| OutOfFuel.         (* the iteration bound of the model was reached *)

Arguments Returned {A} a.
Arguments KeyError {A}.
Arguments OutOfFuel {A}.

(** A heap entry [(tot_dist, x, y)]. *)
Definition key : Type := (Q * Q * Q)%type.

Definition key_eqb (k1 k2 : key) : bool :=
  let '(f1, x1, y1) := k1 in
  let '(f2, x2, y2) := k2 in
  Qeq_bool f1 f2 && Qeq_bool x1 x2 && Qeq_bool y1 y2.

(** Lexicographic order of tuples. *)
Definition key_ltb (k1 k2 : key) : bool :=
  let '(f1, x1, y1) := k1 in
  let '(f2, x2, y2) := k2 in
  if Qeq_bool f1 f2 then
    if Qeq_bool x1 x2 then Qlt_bool y1 y2 else Qlt_bool x1 x2
  else Qlt_bool f1 f2.

(** The priority queue is kept as the list of its entries; [heappop]
    removes a least entry. *)
Fixpoint heap_min (k : key) (rest : list key) : key :=
  match rest with
  | [] => k
  | k' :: r => heap_min (if key_ltb k' k then k' else k) r
  end.

Fixpoint remove_one (k : key) (l : list key) : list key :=
  match l with
  | [] => []
  | k' :: r => if key_eqb k k' then r else k' :: remove_one k r
  end.

Definition heappop (h : list key) : option (key * list key) :=
  match h with
  | [] => None
  | k :: r => let m := heap_min k r in Some (m, remove_one m h)
  end.

Definition heappush (h : list key) (k : key) : list key := k :: h.

(** The state of the search: the heap [h], the dictionary [pathmapper]
    from heap entries to [[length_travelled, path]] (an association list,
    the most recent binding of a key first) and the set [visited]. *)
Record astar_state : Type := mkState {
  h : list key;
  pathmapper : list (key * (Q * list point));
  visited : list point
}.

Fixpoint lookup (k : key) (m : list (key * (Q * list point)))
    : option (Q * list point) :=
  match m with
  | [] => None
  | (k', v) :: r => if key_eqb k k' then Some v else lookup k r
  end.

Definition is_visited (p : point) (vs : list point) : bool :=
  existsb (pt_eqb p) vs.

(** [path[-1]] and [path[-2]]. *)
Definition ult (path : list point) : point := last path (0, 0).
Definition pen (path : list point) : point := last (removelast path) (0, 0).

(** The goal tolerance [10 ** -8]. *)
Definition tolerance : Q := 1 # 100000000.

(** The four unit displacements, in the order of the source. *)
Definition displacements : list point := [(0, 1); (0, -1); (1, 0); (-1, 0)].

(** The direction of travel at the end of [current_path]. *)
Definition travel_direction (start_direction : point)
    (current_path : list point) : point :=
  if Nat.eqb (length current_path) 1 then start_direction
  else psub (ult current_path) (pen current_path).

(** The list [neighbors] built by the first [for] loop of an expansion. *)
Definition neighbors (design : list bounds) (step_size : Q)
    (start_direction : point) (current_path : list point) : list point :=
  let direction := travel_direction start_direction current_path in
  flat_map
    (fun disp =>
       if Qle_bool 0 (dot disp direction) then
         let curpt := ult current_path in
         let nextpt := padd curpt (pscale step_size disp) in
         if no_obstacles design (curpt, nextpt) then [nextpt] else []
       else [])
    displacements.

(** [new_path] for a neighbor: collinear segments are concatenated. *)
Definition extend_path (current_path : list point) (neighbor : point)
    : list point :=
  if Nat.ltb 1 (length current_path) then
    let '(x_ult, y_ult) := ult current_path in
    let '(x_pen, y_pen) := pen current_path in
    let '(x_cur, y_cur) := neighbor in
    if Qeq_bool ((y_ult - y_pen) * (x_cur - x_ult))
                ((y_cur - y_ult) * (x_ult - x_pen))
    then removelast current_path ++ [neighbor]
    else current_path ++ [neighbor]
  else current_path ++ [neighbor].

(** The second [for] loop of an expansion: either the search returns a
    path ([inl]) or it goes on with an updated state ([inr]). *)
Fixpoint visit_neighbors (end_ : point) (step_size length_travelled : Q)
    (current_path : list point) (ns : list point) (st : astar_state)
    : list point + astar_state :=
  match ns with
  | [] => inr st
  | neighbor :: rest =>
      if is_visited neighbor (visited st) then
        visit_neighbors end_ step_size length_travelled current_path rest st
      else
        let new_remaining_dist := manhattan end_ neighbor in
        let new_length_travelled := length_travelled + step_size in
        let new_path := extend_path current_path neighbor in
        if Qlt_bool new_remaining_dist tolerance then
          inl (removelast new_path ++ [end_])
        else
          let k := (new_length_travelled + new_remaining_dist,
                    fst neighbor, snd neighbor) in
          visit_neighbors end_ step_size length_travelled current_path rest
            (mkState (heappush (h st) k)
                     ((k, (new_length_travelled, new_path)) :: pathmapper st)
                     (neighbor :: visited st))
  end.

(** The [while h] loop, for at most [fuel] iterations. *)
Fixpoint astar_loop (fuel : nat) (design : list bounds)
    (start_direction end_ : point) (step_size : Q) (st : astar_state)
    : outcome (list point) :=
  match fuel with
  | O => OutOfFuel
  | S fuel' =>
      match heappop (h st) with
      | None => Returned []
      | Some (k, h') =>
          match lookup k (pathmapper st) with
          | None => KeyError
          | Some (length_travelled, current_path) =>
              let ns := neighbors design step_size start_direction current_path in
              match visit_neighbors end_ step_size length_travelled current_path ns
                      (mkState h' (pathmapper st) (visited st)) with
              | inl path => Returned path
              | inr st' => astar_loop fuel' design start_direction end_ step_size st'
              end
          end
      end
  end.

Definition initial_state (start end_ : point) : astar_state :=
  let starting_dist := manhattan end_ start in
  let k := (starting_dist, fst start, snd start) in
  mkState [k] [(k, (starting_dist, [start]))] [start].

Definition getpts_astar (fuel : nat) (design : list bounds)
    (start_direction start end_ : point) (step_size : Q)
    : outcome (list point) :=
  astar_loop fuel design start_direction end_ step_size
             (initial_state start end_).

(** ** Route composer: [make] *)

(** A pin of a component: its [middle] point and its [normal]. *)
Record connector : Type := mkConnector {
  middle : point;
  normal : point
}.

(** The parsed options of the component that [make] reads. *)
Record options : Type := mkOptions {
  leadin_start : Q;
  leadin_end : Q;
  cpw_width : Q;
  step_size : Q;
  anchors : list point   (* [list(anchors.values())], in insertion order *)
}.

(** [l[1:]]. *)
Definition drop_first (l : list point) : list point := tl l.

(** The [for coord in ...] loop of [make] on the vertex list [pts]. *)
Fixpoint route_loop (fuel : nat) (design : list bounds) (step : Q)
    (pts : list point) (coords : list point) : outcome (list point) :=
  match coords with
  | [] => Returned pts
  | coord :: rest =>
      let easypath := getpts_simple design (psub coord (ult pts)) (ult pts) coord in
      match easypath with
      | _ :: _ => route_loop fuel design step (pts ++ drop_first easypath) rest
      | [] =>
          match getpts_astar fuel design (psub coord (ult pts)) (ult pts) coord step with
          | Returned path => route_loop fuel design step (pts ++ drop_first path) rest
          | KeyError => KeyError
          | OutOfFuel => OutOfFuel
          end
      end
  end.

(** The lead-in point [m1 + n1 * (w / 2 + leadstart)] and the lead-out
    point [m2 + n2 * (w / 2 + leadend)]. *)
Definition leadin_point (p : options) (c1 : connector) : point :=
  padd (middle c1) (pscale (cpw_width p / 2 + leadin_start p) (normal c1)).
Definition leadout_point (p : options) (c2 : connector) : point :=
  padd (middle c2) (pscale (cpw_width p / 2 + leadin_end p) (normal c2)).

(** [make], up to the vertex list [self._pts] handed to [draw.LineString]. *)
Definition make (fuel : nat) (design : list bounds) (p : options)
    (connector1 connector2 : connector) : outcome (list point) :=
  let pts := [middle connector1; leadin_point p connector1] in
  match route_loop fuel design (step_size p) pts
          (anchors p ++ [leadout_point p connector2]) with
  | Returned pts' => Returned (pts' ++ [middle connector2])
  | KeyError => KeyError
  | OutOfFuel => OutOfFuel
  end.

End Router.

Import Router.

(** * The router on binary64 numbers

    The coordinates of the source are numpy [float64] numbers.  This module
    repeats the kernel, the clearance test, the direct/elbow router and the
    grid search on Rocq's primitive floats, whose operations are the
    IEEE 754 binary64 operations (rounding to nearest, ties to even) that
    numpy performs.  It serves to run the code on concrete inputs whose
    outcome depends on rounding. *)

Module Binary64.

Import Floats.
#[local] Set Warnings "-inexact-float".
#[local] Open Scope float_scope.

(** A numpy array of two [float64] coordinates, a candidate segment and a
    bounding box. *)
Definition point : Type := (float * float)%type.
Definition bounds : Type := (float * float * float * float)%type.
Definition segment : Type := (point * point)%type.

(** [a == b], [a <= b], [a < b] and [a > b] on [float64] numbers. *)
Definition eqb (a b : float) : bool := PrimFloat.eqb a b.
Definition leb (a b : float) : bool := PrimFloat.leb a b.
Definition ltb (a b : float) : bool := PrimFloat.ltb a b.
Definition gtb (a b : float) : bool := PrimFloat.ltb b a.

(** The builtins [min(a, b)] and [max(a, b)]: the first argument unless
    the second is smaller (greater). *)
Definition min (a b : float) : float := if ltb b a then b else a.
Definition max (a b : float) : float := if gtb b a then b else a.

(** The chained comparison [lo <= x <= hi]. *)
Definition between (lo x hi : float) : bool := leb lo x && leb x hi.

(** [p + q], [p - q], [k * p], [np.dot p q], [sum(abs(p - q))] and the
    elementwise equality of two arrays. *)
Definition padd (p q : point) : point := (fst p + fst q, snd p + snd q).
Definition psub (p q : point) : point := (fst p - fst q, snd p - snd q).
Definition pscale (k : float) (p : point) : point := (k * fst p, k * snd p).
Definition dot (p q : point) : float := fst p * fst q + snd p * snd q.
Definition manhattan (p q : point) : float :=
  abs (fst p - fst q) + abs (snd p - snd q).
Definition pt_eqb (p q : point) : bool :=
  eqb (fst p) (fst q) && eqb (snd p) (snd q).

(** ** Geometry kernel *)

(** Division that reports a zero divisor. *)
Definition checked_div (n d : float) : option float :=
  if eqb d 0 then None else Some (n / d).

(** [overlapping], line by line as [Geometry.overlapping], on [float64]. *)
Definition overlapping (a b c d : point) : bool :=
  let '(x0_start, y0_start) := a in
  let '(x0_end, y0_end) := b in
  let '(x1_start, y1_start) := c in
  let '(x1_end, y1_end) := d in
  if eqb x0_start x0_end && eqb x1_start x1_end then
    if eqb x0_end x1_start then
      negb (gtb (min y0_start y0_end) (max y1_start y1_end)
            || gtb (min y1_start y1_end) (max y0_start y1_end))
    else false
  else if eqb x0_start x0_end || eqb x1_start x1_end then
    let '(x0_start, x0_end, x1_start, x1_end, y0_start, y0_end, y1_start, y1_end) :=
      if eqb x1_start x1_end
      then (x1_start, x1_end, x0_start, x0_end, y1_start, y1_end, y0_start, y0_end)
      else (x0_start, x0_end, x1_start, x1_end, y0_start, y0_end, y1_start, y1_end) in
    let m := (y1_end - y1_start) / (x1_end - x1_start) in
    let b := (x1_end * y1_start - x1_start * y1_end) / (x1_end - x1_start) in
    if between (min x1_start x1_end) x0_start (max x1_start x1_end) then
      if between (min y0_start y0_end) (m * x0_start + b) (max y0_start y0_end)
      then true else false
    else false
  else
    let b0 := (y0_start * x0_end - y0_end * x0_start) / (x0_end - x0_start) in
    let b1 := (y1_start * x1_end - y1_end * x1_start) / (x1_end - x1_start) in
    if eqb ((x1_end - x1_start) * (y0_end - y0_start))
           ((x0_end - x0_start) * (y1_end - y1_start)) then
      if eqb b0 b1 then
        negb (gtb (min x0_start x0_end) (max x1_start x1_end)
              || gtb (min x1_start x1_end) (max x0_start x1_end))
      else false
    else
      let m0 := (y0_end - y0_start) / (x0_end - x0_start) in
      let m1 := (y1_end - y1_start) / (x1_end - x1_start) in
      let x_intersect := (b1 - b0) / (m0 - m1) in
      let y_intersect := m0 * x_intersect + b0 in
      if between (min x0_start x0_end) x_intersect (max x0_start x0_end) then
        if between (min y0_start y0_end) y_intersect (max y0_start y0_end) then
          if between (min x1_start x1_end) x_intersect (max x1_start x1_end) then
            if between (min y1_start y1_end) y_intersect (max y1_start y1_end)
            then true else false
          else false
        else false
      else false.

(** The same function with every division of the source guarded: [None]
    is returned as soon as a division meets a divisor equal to zero. *)
Definition overlapping_checked (a b c d : point) : option bool :=
  let '(x0_start, y0_start) := a in
  let '(x0_end, y0_end) := b in
  let '(x1_start, y1_start) := c in
  let '(x1_end, y1_end) := d in
  if eqb x0_start x0_end && eqb x1_start x1_end then
    if eqb x0_end x1_start then
      Some (negb (gtb (min y0_start y0_end) (max y1_start y1_end)
                  || gtb (min y1_start y1_end) (max y0_start y1_end)))
    else Some false
  else if eqb x0_start x0_end || eqb x1_start x1_end then
    let '(x0_start, x0_end, x1_start, x1_end, y0_start, y0_end, y1_start, y1_end) :=
      if eqb x1_start x1_end
      then (x1_start, x1_end, x0_start, x0_end, y1_start, y1_end, y0_start, y0_end)
      else (x0_start, x0_end, x1_start, x1_end, y0_start, y0_end, y1_start, y1_end) in
    m <- checked_div (y1_end - y1_start) (x1_end - x1_start) ;;
    b <- checked_div (x1_end * y1_start - x1_start * y1_end) (x1_end - x1_start) ;;
    if between (min x1_start x1_end) x0_start (max x1_start x1_end) then
      if between (min y0_start y0_end) (m * x0_start + b) (max y0_start y0_end)
      then Some true else Some false
    else Some false
  else
    b0 <- checked_div (y0_start * x0_end - y0_end * x0_start) (x0_end - x0_start) ;;
    b1 <- checked_div (y1_start * x1_end - y1_end * x1_start) (x1_end - x1_start) ;;
    if eqb ((x1_end - x1_start) * (y0_end - y0_start))
           ((x0_end - x0_start) * (y1_end - y1_start)) then
      if eqb b0 b1 then
        Some (negb (gtb (min x0_start x0_end) (max x1_start x1_end)
                    || gtb (min x1_start x1_end) (max x0_start x1_end)))
      else Some false
    else
      m0 <- checked_div (y0_end - y0_start) (x0_end - x0_start) ;;
      m1 <- checked_div (y1_end - y1_start) (x1_end - x1_start) ;;
      x_intersect <- checked_div (b1 - b0) (m0 - m1) ;;
      let y_intersect := m0 * x_intersect + b0 in
      if between (min x0_start x0_end) x_intersect (max x0_start x0_end) then
        if between (min y0_start y0_end) y_intersect (max y0_start y0_end) then
          if between (min x1_start x1_end) x_intersect (max x1_start x1_end) then
            if between (min y1_start y1_end) y_intersect (max y1_start y1_end)
            then Some true else Some false
          else Some false
        else Some false
      else Some false.

(** ** Obstacle index and direct/elbow router *)

Definition box_edges (bx : bounds) : list segment :=
  let '(xmin, ymin, xmax, ymax) := bx in
  let p := (xmin, ymin) in
  let q := (xmin, ymax) in
  let r := (xmax, ymin) in
  let s := (xmax, ymax) in
  [(p, q); (p, r); (r, s); (q, s)].

Definition hits_box (seg : segment) (bx : bounds) : bool :=
  existsb (fun kl => overlapping (fst seg) (snd seg) (fst kl) (snd kl))
          (box_edges bx).

Definition no_obstacles (design : list bounds) (seg : segment) : bool :=
  forallb (fun bx => negb (hits_box seg bx)) design.

Definition getpts_simple (design : list bounds)
    (start_direction start end_ : point) : list point :=
  if leb 0 (dot start_direction (psub end_ start)) then
    if (eqb (fst start) (fst end_) || eqb (snd start) (snd end_))
       && no_obstacles design (start, end_)
    then [start; end_]
    else
      let newpt1 := (fst start, snd end_) in
      if no_obstacles design (start, newpt1) && no_obstacles design (newpt1, end_)
      then [start; newpt1; end_]
      else
        let newpt2 := (fst end_, snd start) in
        if no_obstacles design (start, newpt2) && no_obstacles design (newpt2, end_)
        then [start; newpt2; end_]
        else
          let offsetx := abs (fst start - fst end_) in
          let offsety := abs (snd start - snd end_) in
          let '(newpt3, newpt4) :=
            if leb offsety offsetx
            then (((fst start + fst end_) / 2, snd start),
                  ((fst start + fst end_) / 2, snd end_))
            else ((fst start, (snd start + snd end_) / 2),
                  (fst end_, (snd start + snd end_) / 2)) in
          if no_obstacles design (start, newpt3) then
            if no_obstacles design (newpt3, newpt4) then
              if no_obstacles design (newpt4, end_)
              then [start; newpt3; newpt4; end_]
              else []
            else []
          else []
  else [].

(** ** Grid search *)

(** A heap entry [(tot_dist, x, y)]; entries are equal, and ordered, as
    tuples of numbers are. *)
Definition key : Type := (float * float * float)%type.

Definition key_eqb (k1 k2 : key) : bool :=
  let '(f1, x1, y1) := k1 in
  let '(f2, x2, y2) := k2 in
  eqb f1 f2 && eqb x1 x2 && eqb y1 y2.

Definition key_ltb (k1 k2 : key) : bool :=
  let '(f1, x1, y1) := k1 in
  let '(f2, x2, y2) := k2 in
  if eqb f1 f2 then
    if eqb x1 x2 then ltb y1 y2 else ltb x1 x2
  else ltb f1 f2.

Fixpoint heap_min (k : key) (rest : list key) : key :=
  match rest with
  | [] => k
  | k' :: r => heap_min (if key_ltb k' k then k' else k) r
  end.

Fixpoint remove_one (k : key) (l : list key) : list key :=
  match l with
  | [] => []
  | k' :: r => if key_eqb k k' then r else k' :: remove_one k r
  end.

Definition heappop (h : list key) : option (key * list key) :=
  match h with
  | [] => None
  | k :: r => let m := heap_min k r in Some (m, remove_one m h)
  end.

Definition heappush (h : list key) (k : key) : list key := k :: h.

Record astar_state : Type := mkState {
  h : list key;
  pathmapper : list (key * (float * list point));
  visited : list point
}.

Fixpoint lookup (k : key) (m : list (key * (float * list point)))
    : option (float * list point) :=
  match m with
  | [] => None
  | (k', v) :: r => if key_eqb k k' then Some v else lookup k r
  end.

Definition is_visited (p : point) (vs : list point) : bool :=
  existsb (pt_eqb p) vs.

Definition ult (path : list point) : point := last path (0, 0).
Definition pen (path : list point) : point := last (removelast path) (0, 0).

(** The goal tolerance: [10 ** -8] evaluates to the float [1e-08]. *)
Definition tolerance : float := 1e-8.

(** The four unit displacements; the product with the float [step_size]
    turns the integer arrays of the source into float arrays. *)
Definition displacements : list point := [(0, 1); (0, -1); (1, 0); (-1, 0)].

Definition travel_direction (start_direction : point)
    (current_path : list point) : point :=
  if Nat.eqb (length current_path) 1 then start_direction
  else psub (ult current_path) (pen current_path).

Definition neighbors (design : list bounds) (step_size : float)
    (start_direction : point) (current_path : list point) : list point :=
  let direction := travel_direction start_direction current_path in
  flat_map
    (fun disp =>
       if leb 0 (dot disp direction) then
         let curpt := ult current_path in
         let nextpt := padd curpt (pscale step_size disp) in
         if no_obstacles design (curpt, nextpt) then [nextpt] else []
       else [])
    displacements.

Definition extend_path (current_path : list point) (neighbor : point)
    : list point :=
  if Nat.ltb 1 (length current_path) then
    let '(x_ult, y_ult) := ult current_path in
    let '(x_pen, y_pen) := pen current_path in
    let '(x_cur, y_cur) := neighbor in
    if eqb ((y_ult - y_pen) * (x_cur - x_ult))
           ((y_cur - y_ult) * (x_ult - x_pen))
    then removelast current_path ++ [neighbor]
    else current_path ++ [neighbor]
  else current_path ++ [neighbor].

Fixpoint visit_neighbors (end_ : point) (step_size length_travelled : float)
    (current_path : list point) (ns : list point) (st : astar_state)
    : list point + astar_state :=
  match ns with
  | [] => inr st
  | neighbor :: rest =>
      if is_visited neighbor (visited st) then
        visit_neighbors end_ step_size length_travelled current_path rest st
      else
        let new_remaining_dist := manhattan end_ neighbor in
        let new_length_travelled := length_travelled + step_size in
        let new_path := extend_path current_path neighbor in
        if ltb new_remaining_dist tolerance then
          inl (removelast new_path ++ [end_])
        else
          let k := (new_length_travelled + new_remaining_dist,
                    fst neighbor, snd neighbor) in
          visit_neighbors end_ step_size length_travelled current_path rest
            (mkState (heappush (h st) k)
                     ((k, (new_length_travelled, new_path)) :: pathmapper st)
                     (neighbor :: visited st))
  end.

Fixpoint astar_loop (fuel : nat) (design : list bounds)
    (start_direction end_ : point) (step_size : float) (st : astar_state)
    : outcome (list point) :=
  match fuel with
  | O => OutOfFuel
  | S fuel' =>
      match heappop (h st) with
      | None => Returned []
      | Some (k, h') =>
          match lookup k (pathmapper st) with
          | None => KeyError
          | Some (length_travelled, current_path) =>
              let ns := neighbors design step_size start_direction current_path in
              match visit_neighbors end_ step_size length_travelled current_path ns
                      (mkState h' (pathmapper st) (visited st)) with
              | inl path => Returned path
              | inr st' => astar_loop fuel' design start_direction end_ step_size st'
              end
          end
      end
  end.

Definition initial_state (start end_ : point) : astar_state :=
  let starting_dist := manhattan end_ start in
  let k := (starting_dist, fst start, snd start) in
  mkState [k] [(k, (starting_dist, [start]))] [start].

Definition getpts_astar (fuel : nat) (design : list bounds)
    (start_direction start end_ : point) (step_size : float)
    : outcome (list point) :=
  astar_loop fuel design start_direction end_ step_size
             (initial_state start end_).

End Binary64.

(** ** Vocabulary of the properties *)

(** The segments between consecutive vertices of a route. *)
Fixpoint segments (route : list point) : list segment :=
  match route with
  | a :: (b :: _) as rest => (a, b) :: segments rest
  | _ => []
  end.

(** Every segment of the route passes the clearance test. *)
Definition all_clear (design : list bounds) (route : list point) : Prop :=
  Forall (fun seg => no_obstacles design seg = true) (segments route).


(** Every hop, from [tail] through the targets [coords] in order, is
    resolved by [getpts_simple], as the composer calls it. *)
Fixpoint direct_hops (design : list bounds) (tail : point)
    (coords : list point) : Prop :=
  match coords with
  | [] => True
  | coord :: rest =>
      getpts_simple design (psub coord tail) tail coord <> []
      /\ direct_hops design coord rest
  end.

(** [hops] lists, for each target of [coords] in turn, the vertices that
    its hop appends to a route that ends at [tail]; every hop that
    [getpts_simple] resolves appends the route of [getpts_simple] without
    its first vertex, and every segment of that route passes
    [no_obstacles]. *)
Fixpoint simple_hops_clear (design : list bounds) (tail : point)
    (coords : list point) (hops : list (list point)) : Prop :=
  match coords, hops with
  | [], [] => True
  | coord :: rest, hop :: hops' =>
      (getpts_simple design (psub coord tail) tail coord <> [] ->
       getpts_simple design (psub coord tail) tail coord = tail :: hop /\
       all_clear design (tail :: hop)) /\
      simple_hops_clear design (last hop tail) rest hops'
  | _, _ => False
  end.

(** The cross product of two vectors.  [same_line a b c d]: the points [c]
    and [d] lie on the line through [a] and [b] (every point does when [a]
    and [b] coincide). *)
Definition cross (u v : point) : Q := fst u * snd v - snd u * fst v.

Definition same_line (a b c d : point) : Prop :=
  cross (psub b a) (psub c a) == 0 /\ cross (psub b a) (psub d a) == 0.

(** An edge parallel to one of the axes. *)
Definition axis_parallel (k l : point) : Prop :=
  fst k == fst l \/ snd k == snd l.

(** The points that the search can reach from [start]: the grid of mesh
    [step] through [start]. *)
Definition on_grid (start : point) (step : Q) (v : point) : Prop :=
  exists i j : Z,
    fst v == fst start + step * inject_Z i /\
    snd v == snd start + step * inject_Z j.

(** What holds of every path stored in [pathmapper]: it begins at [start],
    its vertices are visited, pairwise distinct and, [start] apart, farther
    than the tolerance from the goal. *)
Record path_ok (start end_ : point) (vs path : list point) : Prop := mkPathOk {
  path_head : exists rest, path = start :: rest;
  path_visited : forall v, In v path -> is_visited v vs = true;
  path_distinct : NoDupA pt_eq path;
  path_far : forall v, In v (tl path) -> tolerance <= manhattan end_ v
}.

(** The invariant of the [while] loop of the search. *)
Definition astar_inv (start end_ : point) (step : Q) (st : astar_state) : Prop :=
  (forall k len path,
     In (k, (len, path)) (pathmapper st) ->
     path_ok start end_ (visited st) path) /\
  (forall v, In v (visited st) -> on_grid start step v).

(** A route from [start] to [end_] with pairwise distinct vertices. *)
Definition good_route (start end_ : point) (p : list point) : Prop :=
  exists rest, p = start :: rest ++ [end_] /\ NoDupA pt_eq p.

(** Every entry of the heap has a binding in [pathmapper]. *)
Definition heap_bound (st : astar_state) : Prop :=
  forall k, In k (h st) -> exists v, lookup k (pathmapper st) = Some v.

(** ** Vocabulary of the further properties *)

(** Every segment of the route is parallel to an axis. *)
Definition orthogonal (route : list point) : Prop :=
  Forall (fun seg => axis_parallel (fst seg) (snd seg)) (segments route).

(** Every binding of [pathmapper] holds a path that satisfies [P]. *)
Definition stored_paths (P : list point -> Prop) (st : astar_state) : Prop :=
  forall k len path, In (k, (len, path)) (pathmapper st) -> P path.

(** How the search returns a route [r]: from a stored path that satisfies
    [P] and one of its neighbors that lies within the tolerance of the
    goal. *)
Definition returned_from (design : list bounds) (start_direction end_ : point)
    (step : Q) (P : list point -> Prop) (r : list point) : Prop :=
  exists path n,
    P path /\ In n (neighbors design step start_direction path) /\
    manhattan end_ n < tolerance /\
    r = removelast (extend_path path n) ++ [end_].



(** A path that begins at [start] and whose vertices lie on the grid. *)
Definition grid_path (start : point) (step : Q) (path : list point) : Prop :=
  (exists rest, path = start :: rest) /\
  (forall v, In v path -> on_grid start step v).

(** Each target shares a coordinate with the previous one and the segment
    between them is clear. *)
Fixpoint aligned_clear (design : list bounds) (tail : point)
    (coords : list point) : Prop :=
  match coords with
  | [] => True
  | coord :: rest =>
      (fst tail == fst coord \/ snd tail == snd coord) /\
      no_obstacles design (tail, coord) = true /\
      aligned_clear design coord rest
  end.

(** Each hop, from [tail] through the targets in turn, succeeds at its
    first attempt: the direct segment is clear when the target shares a
    coordinate with the previous point, and the two segments of the elbow
    through [(previous x, target y)] are clear otherwise. *)
Fixpoint first_attempt_clear (design : list bounds) (tail : point)
    (coords : list point) : Prop :=
  match coords with
  | [] => True
  | coord :: rest =>
      (if Qeq_bool (fst tail) (fst coord) || Qeq_bool (snd tail) (snd coord)
       then no_obstacles design (tail, coord) = true
       else no_obstacles design (tail, (fst tail, snd coord)) = true /\
            no_obstacles design ((fst tail, snd coord), coord) = true) /\
      first_attempt_clear design coord rest
  end.

(** The vertices that such hops add: the target alone when it shares a
    coordinate with the tail, the bend [(tail.x, target.y)] and the target
    otherwise. *)
Fixpoint open_route (tail : point) (coords : list point) : list point :=
  match coords with
  | [] => []
  | coord :: rest =>
      (if Qeq_bool (fst tail) (fst coord) || Qeq_bool (snd tail) (snd coord)
       then [coord]
       else [(fst tail, snd coord); coord])
      ++ open_route coord rest
  end.

(** * GDS renderer ([renderers/renderer_gds/gds_renderer.py]) *)

Module GdsRenderer.

(** [itemgetter(0)], ..., [itemgetter(3)] on a tuple
    [(minx, miny, maxx, maxy)]. *)
Definition item0 (b : bounds) : Q := let '(minx, _, _, _) := b in minx.
Definition item1 (b : bounds) : Q := let '(_, miny, _, _) := b in miny.
Definition item2 (b : bounds) : Q := let '(_, _, maxx, _) := b in maxx.
Definition item3 (b : bounds) : Q := let '(_, _, _, maxy) := b in maxy.

(** [min(l, key=key)] and [max(l, key=key)] on the non-empty list
    [best :: rest]: the first element with the least (greatest) key. *)
Fixpoint min_by (key : bounds -> Q) (best : bounds) (rest : list bounds)
    : bounds :=
  match rest with
  | [] => best
  | b :: r => min_by key (if Qlt_bool (key b) (key best) then b else best) r
  end.

Fixpoint max_by (key : bounds -> Q) (best : bounds) (rest : list bounds)
    : bounds :=
  match rest with
  | [] => best
  | b :: r => max_by key (if Qgt_bool (key b) (key best) then b else best) r
  end.

(** [get_bounds]: the bounds of a table, [(0, 0, 0, 0)] for an empty one.
    [total_bounds] stands for the attribute of that name of a GeoSeries. *)
Definition get_bounds {row : Type} (total_bounds : list row -> bounds)
    (gs_table : list row) : bounds :=
  match gs_table with
  | [] => (0, 0, 0, 0)
  | _ :: _ => total_bounds gs_table
  end.

(** [inclusive_bound]: the box that includes every box of the list. *)
Definition inclusive_bound (all_bounds : list bounds) : bounds :=
  match all_bounds with
  | [] => (0, 0, 0, 0)
  | b :: r =>
      (item0 (min_by item0 b r), item1 (min_by item1 b r),
       item2 (max_by item2 b r), item3 (max_by item3 b r))
  end.

(** The list [self.dict_bounds[chip_name]['gather']] once
    [create_qgeometry_for_gds] has gone through the tables of a chip:
    [gather_subtract_elements_and_bounds] appends the bounds of each. *)
Definition gather_bounds {row : Type} (total_bounds : list row -> bounds)
    (tables : list (list row)) : list bounds :=
  map (get_bounds total_bounds) tables.

(** The value of an option: a [float], an [int] (a [bool] is an [int]), or
    an object that is no number, such as a string or [None]. *)
Inductive pyval : Type :=
| PyFloat (x : Q)
| PyInt (n : Z)
| PyOther.

(** The options of the renderer that the functions below read. *)
Record options : Type := mkOptions {
  bounding_box_scale_x : pyval;
  bounding_box_scale_y : pyval
}.

(** [GDSRender.default_options.bounding_box_scale_x] and [..._y]. *)
Definition default_scale : Q := 12 # 10.

(** A warning of [check_bounding_box_scale], with the value that its text
    shows after [User provided bounding_box_scale_x =]. *)
Inductive scale_warning : Type :=
| ScaleX (shown : pyval)
| ScaleY (shown : pyval).

(** One of the two checks: the new value of the option, and whether the
    [else] branch, which logs a warning, was taken.  [float(n)] is taken
    to be [n] itself, which it is for the integers that [converts_exactly]
    admits. *)
Definition check_scale (v : pyval) : pyval * bool :=
  match v with
  | PyFloat x => if Qle_bool 1 x then (v, false) else (PyFloat default_scale, true)
  | PyInt n => if Z.leb 1 n then (PyFloat (inject_Z n), false)
               else (PyFloat default_scale, true)
  | PyOther => (PyFloat default_scale, true)
  end.

(** [check_bounding_box_scale]: the options after the check and the
    warnings logged, in order.  The text of a warning is formatted after
    the option has been overwritten. *)
Definition check_bounding_box_scale (o : options) : options * list scale_warning :=
  let '(x, warn_x) := check_scale (bounding_box_scale_x o) in
  let '(y, warn_y) := check_scale (bounding_box_scale_y o) in
  (mkOptions x y,
   (if warn_x then [ScaleX x] else []) ++ (if warn_y then [ScaleY y] else [])).

(** The number that arithmetic sees in an option; [None] where a product
    with a [float] raises [TypeError]. *)
Definition number (v : pyval) : option Q :=
  match v with
  | PyFloat x => Some x
  | PyInt n => Some (inject_Z n)
  | PyOther => None
  end.

(** What [dict_bounds[chip_name]] holds. *)
Record chip_bounds : Type := mkChipBounds {
  gather : list bounds;
  for_subtract : option bounds;
  scaled_box : option bounds;
  inclusive_box : option bounds
}.

(** [self.dict_bounds], from chip names to their entries. *)
Definition dict_bounds : Type := list (String.string * chip_bounds).

(** [self.dict_bounds[chip_name]['scaled_box'] = s] followed by
    [self.dict_bounds[chip_name]['inclusive_box'] = i]; a missing entry is
    created, as [Dict] does. *)
Fixpoint store_boxes (db : dict_bounds) (chip_name : String.string)
    (s i : bounds) : dict_bounds :=
  match db with
  | [] => [(chip_name, mkChipBounds [] None (Some s) (Some i))]
  | (name, entry) :: rest =>
      if String.eqb name chip_name
      then (name, mkChipBounds (gather entry) (for_subtract entry)
                               (Some s) (Some i)) :: rest
      else (name, entry) :: store_boxes rest chip_name s i
  end.

(** [scale_max_bounds]: the scaled box and the inclusive box, with the
    updated [dict_bounds]; [None] when the arithmetic raises [TypeError]. *)
Definition scale_max_bounds (o : options) (db : dict_bounds)
    (chip_name : String.string) (all_bounds : list bounds)
    : option (bounds * bounds * dict_bounds) :=
  match all_bounds with
  | [] => Some ((0, 0, 0, 0), (0, 0, 0, 0), db)
  | _ :: _ =>
      let '(minx, miny, maxx, maxy) := inclusive_bound all_bounds in
      let center_x := (minx + maxx) / 2 in
      let center_y := (miny + maxy) / 2 in
      match number (bounding_box_scale_x o), number (bounding_box_scale_y o) with
      | Some scale_x, Some scale_y =>
          let scaled_width := (maxx - minx) * scale_x in
          let scaled_height := (maxy - miny) * scale_y in
          let scaled := (center_x - (1 # 2) * scaled_width,
                         center_y - (1 # 2) * scaled_height,
                         center_x + (1 # 2) * scaled_width,
                         center_y + (1 # 2) * scaled_height) in
          Some (scaled, (minx, miny, maxx, maxy),
                store_boxes db chip_name scaled (minx, miny, maxx, maxy))
      | _, _ => None
      end
  end.

(** [check_qcomps].  [list_of_set l] is [list(set(l))], whose order Python
    leaves open; [names] are the keys of [design.name_to_id].  The result
    is the list of unique names, the status, and the names warned about. *)
Fixpoint first_missing (names : list String.string)
    (unique_qcomponents : list String.string) : option String.string :=
  match unique_qcomponents with
  | [] => None
  | qcomp :: rest =>
      if existsb (String.eqb qcomp) names then first_missing names rest
      else Some qcomp
  end.

Definition check_qcomps
    (list_of_set : list String.string -> list String.string)
    (names : list String.string) (highlight_qcomponents : list String.string)
    : list String.string * Z * list String.string :=
  let unique_qcomponents := list_of_set highlight_qcomponents in
  match first_missing names unique_qcomponents with
  | Some qcomp => (unique_qcomponents, 1%Z, [qcomp])
  | None => (unique_qcomponents, 0%Z, [])
  end.

End GdsRenderer.

(** * Library delegate ([_gui/widgets/qlibrary_display/delegate_qlibrary.py]) *)

Module LibraryDelegate.

(** A model of a view: an object that is no [QAbstractProxyModel], or a
    proxy with the model that its [sourceModel()] returns; each with the
    name of its class. *)
Inductive qmodel : Type :=
| Plain (class_name : String.string)
| Proxy (class_name : String.string) (source : qmodel).

Definition class_name_of (m : qmodel) : String.string :=
  match m with
  | Plain name => name
  | Proxy name _ => name
  end.

(** [get_source_model]: [inl m] when [m] is returned, [inr m] when the
    exception is raised on the model [m]. *)
Fixpoint get_source_model (model : qmodel) (source_type_name : String.string)
    : qmodel + qmodel :=
  if String.eqb (class_name_of model) source_type_name then inl model
  else match model with
       | Proxy _ source => get_source_model source source_type_name
       | Plain _ => inr model
       end.

(** The models met along the chain of [sourceModel()], the first one
    included. *)
Fixpoint chain (model : qmodel) : list qmodel :=
  model :: match model with
           | Plain _ => []
           | Proxy _ source => chain source
           end.

End LibraryDelegate.

(** The entry of a chip in [dict_bounds]. *)
Fixpoint find_chip (db : GdsRenderer.dict_bounds) (chip_name : String.string)
    : option GdsRenderer.chip_bounds :=
  match db with
  | [] => None
  | (name, entry) :: rest =>
      if String.eqb name chip_name then Some entry else find_chip rest chip_name
  end.

(** An option that [float] converts without rounding or overflow: every
    [int] up to 2^53 in magnitude is one, a larger one need not be. *)
Definition converts_exactly (v : GdsRenderer.pyval) : Prop :=
  match v with
  | GdsRenderer.PyInt n => (Z.abs n <= 2 ^ 53)%Z
  | _ => True
  end.

(** The box [outer] contains the box [inner]. *)
Definition box_contains (outer inner : bounds) : Prop :=
  GdsRenderer.item0 outer <= GdsRenderer.item0 inner /\
  GdsRenderer.item1 outer <= GdsRenderer.item1 inner /\
  GdsRenderer.item2 inner <= GdsRenderer.item2 outer /\
  GdsRenderer.item3 inner <= GdsRenderer.item3 outer.

(** The width, the height and the centre of a box. *)
Definition box_width (b : bounds) : Q := GdsRenderer.item2 b - GdsRenderer.item0 b.
Definition box_height (b : bounds) : Q := GdsRenderer.item3 b - GdsRenderer.item1 b.
Definition box_center (b : bounds) : point :=
  ((GdsRenderer.item0 b + GdsRenderer.item2 b) / 2,
   (GdsRenderer.item1 b + GdsRenderer.item3 b) / 2).

(** * Properties *)

(** ** Boolean comparisons *)

Lemma Qgt_bool_true (a b : Q) : Qgt_bool a b = true <-> b < a.
Proof.
  unfold Qgt_bool. rewrite negb_true_iff, <- not_true_iff_false, Qle_bool_iff.
  split; intro H; [apply Qnot_le_lt | apply Qlt_not_le]; exact H.
Qed.

Lemma Qgt_bool_false (a b : Q) : Qgt_bool a b = false <-> a <= b.
Proof.
  unfold Qgt_bool. rewrite negb_false_iff. apply Qle_bool_iff.
Qed.

Lemma Qlt_bool_true (a b : Q) : Qlt_bool a b = true <-> a < b.
Proof. apply (Qgt_bool_true b a). Qed.

Lemma Qlt_bool_false (a b : Q) : Qlt_bool a b = false <-> b <= a.
Proof. apply (Qgt_bool_false b a). Qed.

Lemma Qeq_bool_false (a b : Q) : Qeq_bool a b = false <-> ~ a == b.
Proof.
  rewrite <- not_true_iff_false, Qeq_bool_iff. reflexivity.
Qed.

Lemma Qle_bool_false (a b : Q) : Qle_bool a b = false <-> b < a.
Proof.
  rewrite <- not_true_iff_false, Qle_bool_iff.
  split; intro H; [apply Qnot_le_lt | apply Qlt_not_le]; exact H.
Qed.

(** ** Divisions of the geometry kernel in exact arithmetic *)

Lemma checked_div_defined (n d : Q) :
  Qeq_bool d 0 = false -> checked_div n d = Some (n / d).
Proof. intro H. unfold checked_div. rewrite H. reflexivity. Qed.

Lemma difference_nonzero (u v : Q) :
  Qeq_bool u v = false -> Qeq_bool (v - u) 0 = false.
Proof.
  rewrite !Qeq_bool_false. intros H E. apply H. lra.
Qed.

Lemma slopes_differ (dx0 dy0 dx1 dy1 : Q) :
  ~ dx0 == 0 -> ~ dx1 == 0 ->
  Qeq_bool (dx1 * dy0) (dx0 * dy1) = false ->
  Qeq_bool (dy0 / dx0 - dy1 / dx1) 0 = false.
Proof.
  intros H0 H1. rewrite !Qeq_bool_false. intros H E. apply H.
  assert (Es : dy0 / dx0 == dy1 / dx1) by lra.
  assert (E0 : dx1 * dy0 == dx1 * dx0 * (dy0 / dx0)) by (field; exact H0).
  assert (E1 : dx0 * dy1 == dx1 * dx0 * (dy1 / dx1)) by (field; exact H1).
  rewrite E0, E1, Es. reflexivity.
Qed.

(** In exact arithmetic no division of [overlapping] meets a zero divisor,
    whatever the four end points: the guarded version never fails, and it
    computes the result of [overlapping].  Rounding undoes this on binary64
    numbers, see [Binary64Facts.overlapping_divides_by_zero]. *)
Lemma overlapping_never_divides_by_zero (a b c d : point) :
  overlapping_checked a b c d = Some (overlapping a b c d).
Proof.
  destruct a as [x0s y0s], b as [x0e y0e], c as [x1s y1s], d as [x1e y1e].
  unfold overlapping_checked, overlapping.
  destruct (Qeq_bool x0s x0e) eqn:E0; destruct (Qeq_bool x1s x1e) eqn:E1; cbn [andb orb].
  - destruct (Qeq_bool x0e x1s); reflexivity.
  - rewrite !(checked_div_defined _ _ (difference_nonzero _ _ E1)). cbn [bind].
    repeat match goal with |- context [if ?c then _ else _] => destruct c end;
      reflexivity.
  - rewrite !(checked_div_defined _ _ (difference_nonzero _ _ E0)). cbn [bind].
    repeat match goal with |- context [if ?c then _ else _] => destruct c end;
      reflexivity.
  - rewrite !(checked_div_defined _ _ (difference_nonzero _ _ E0)),
            !(checked_div_defined _ _ (difference_nonzero _ _ E1)). cbn [bind].
    destruct (Qeq_bool ((x1e - x1s) * (y0e - y0s)) ((x0e - x0s) * (y1e - y1s))) eqn:Ep.
    + match goal with |- context [if ?c then _ else _] => destruct c end;
        reflexivity.
    + rewrite checked_div_defined.
      * cbn [bind].
        repeat match goal with |- context [if ?c then _ else _] => destruct c end;
          reflexivity.
      * apply slopes_differ; [| | exact Ep];
          apply Qeq_bool_false; [apply (difference_nonzero _ _ E0)
                                | apply (difference_nonzero _ _ E1)].
Qed.

(** ** Vertical segments *)

(** What the first branch of [overlapping] computes: on two vertical
    segments the second comparison, [min(y1_start, y1_end) >
    max(y0_start, y1_end)], can never hold, so only the first one counts. *)
Lemma overlapping_vertical (x0 y0s y0e x1 y1s y1e : Q) :
  overlapping (x0, y0s) (x0, y0e) (x1, y1s) (x1, y1e) =
  Qeq_bool x0 x1 && Qle_bool (Qmin y0s y0e) (Qmax y1s y1e).
Proof.
  unfold overlapping. rewrite !Qeq_bool_refl. cbn [andb].
  destruct (Qeq_bool x0 x1); cbn [andb]; [| reflexivity].
  assert (H : Qgt_bool (Qmin y1s y1e) (Qmax y0s y1e) = false).
  { apply Qgt_bool_false.
    apply Qle_trans with y1e; [apply Q.le_min_r | apply Q.le_max_r]. }
  rewrite H, orb_false_r. unfold Qgt_bool. apply negb_involutive.
Qed.

(** Two vertical segments with different x-coordinates never overlap. *)
Lemma overlapping_vertical_apart (x0 y0s y0e x1 y1s y1e : Q) :
  ~ x0 == x1 ->
  overlapping (x0, y0s) (x0, y0e) (x1, y1s) (x1, y1e) = false.
Proof.
  intro H. rewrite overlapping_vertical.
  apply Qeq_bool_false in H. rewrite H. reflexivity.
Qed.

(** C1: the vertical segments from (0,0) to (0,1) and from (0,5) to (0,6)
    share their x-coordinate and have disjoint y-intervals, [0,1] and
    [5,6], yet [overlapping] reports that they overlap. *)
Theorem overlapping_vertical_disjoint_reported :
  Qmax 0 1 < Qmin 5 6 /\
  overlapping (0, 0) (0, 1) (0, 5) (0, 6) = true.
Proof. split; reflexivity. Qed.

(** C2: on the non-degenerate segments from (0,0) to (0,1) and from (0,5)
    to (0,6), [overlapping] depends on the order of the two segments. *)
Theorem overlapping_not_symmetric :
  ~ pt_eq (0, 0) (0, 1) /\ ~ pt_eq (0, 5) (0, 6) /\
  overlapping (0, 0) (0, 1) (0, 5) (0, 6) = true /\
  overlapping (0, 5) (0, 6) (0, 0) (0, 1) = false.
Proof.
  repeat split; try reflexivity; intros [_ H]; discriminate H.
Qed.

(** ** The direct/elbow router *)

(** C7, as stated, fails: with [start_direction] opposed to the
    displacement, [start] and [end] on one horizontal line and nothing in
    the way, the result is empty, not [[start; end]]. *)
Lemma getpts_simple_guard_first :
  let start_direction : point := (-1, 0) in
  let start : point := (0, 0) in
  let end_ : point := (1, 0) in
  snd start == snd end_ /\
  no_obstacles [] (start, end_) = true /\
  getpts_simple [] start_direction start end_ = [] /\
  getpts_simple [] start_direction start end_ <> [start; end_].
Proof.
  cbv zeta. repeat split; try reflexivity. discriminate.
Qed.

(** C7, amended: [getpts_simple] returns the empty list when the dot
    product of [start_direction] and [end - start] is negative; when it
    is not negative, [start] and [end] share a coordinate and the direct
    segment is clear, it returns [[start; end]]. *)
Theorem getpts_simple_guard_then_direct
    (design : list bounds) (start_direction start end_ : point) :
  (dot start_direction (psub end_ start) < 0 ->
   getpts_simple design start_direction start end_ = []) /\
  (0 <= dot start_direction (psub end_ start) ->
   fst start == fst end_ \/ snd start == snd end_ ->
   no_obstacles design (start, end_) = true ->
   getpts_simple design start_direction start end_ = [start; end_]).
Proof.
  unfold getpts_simple. split.
  - intro H. apply Qle_bool_false in H. rewrite H. reflexivity.
  - intros H Hc Hn. apply Qle_bool_iff in H. rewrite H, Hn, andb_true_r.
    assert (Hb : Qeq_bool (fst start) (fst end_) || Qeq_bool (snd start) (snd end_) = true).
    { apply orb_true_iff. rewrite !Qeq_bool_iff. exact Hc. }
    rewrite Hb. reflexivity.
Qed.

Lemma getpts_simple_guard_then_direct_witness :
  getpts_simple [] (-1, 0) (0, 0) (1, 0) = [] /\
  getpts_simple [] (1, 0) (0, 0) (1, 0) = [(0, 0); (1, 0)].
Proof.
  split.
  - apply (proj1 (getpts_simple_guard_then_direct [] (-1, 0) (0, 0) (1, 0))).
    reflexivity.
  - apply (proj2 (getpts_simple_guard_then_direct [] (1, 0) (0, 0) (1, 0))).
    + discriminate.
    + right. reflexivity.
    + reflexivity.
Defined.

(** ** Neighbors of an expansion *)

Lemma neighbors_spec (design : list bounds) (step : Q) (sd : point)
    (path : list point) (n : point) :
  In n (neighbors design step sd path) ->
  exists disp,
    In disp displacements /\
    n = padd (ult path) (pscale step disp) /\
    0 <= dot disp (travel_direction sd path) /\
    no_obstacles design (ult path, n) = true.
Proof.
  unfold neighbors. intro Hn. apply in_flat_map in Hn.
  destruct Hn as [disp [Hd Hn]].
  destruct (Qle_bool 0 (dot disp (travel_direction sd path))) eqn:Hdot;
    [| destruct Hn].
  destruct (no_obstacles design _) eqn:Hclear; [| destruct Hn].
  destruct Hn as [<- | []].
  apply Qle_bool_iff in Hdot.
  exists disp. repeat split; assumption.
Qed.

Lemma manhattan_unit_step (p disp : point) (step : Q) :
  In disp displacements ->
  manhattan (padd p (pscale step disp)) p == Qabs step.
Proof.
  intro H. unfold manhattan, padd, pscale. cbn [fst snd].
  assert (Z0 : forall a : Q, a + step * 0 - a == 0) by (intro; ring).
  assert (Z1 : forall a : Q, a + step * 1 - a == step) by (intro; ring).
  assert (Z2 : forall a : Q, a + step * -1 - a == - step) by (intro; ring).
  cbn [displacements In] in H.
  destruct H as [<- | [<- | [<- | [<- | []]]]]; cbn [fst snd];
    rewrite ?Z0, ?Z1, ?Z2, ?Qabs_opp; change (Qabs 0) with 0; ring.
Qed.

(** C6: every neighbor generated in an expansion is the current point
    moved by [step_size] along one of the four unit displacements, that
    displacement has a non-negative dot product with the direction of
    travel, which is [start_direction] on a path of one point and the
    difference of the last two points otherwise; the neighbor lies at
    distance [|step_size|], and for a non-negative [step_size] the move
    itself has a non-negative dot product with the direction of travel. *)
Theorem neighbors_never_backwards
    (design : list bounds) (step : Q) (start_direction : point)
    (current_path : list point) (n : point) :
  In n (neighbors design step start_direction current_path) ->
  let direction := travel_direction start_direction current_path in
  (length current_path = 1%nat -> direction = start_direction) /\
  (length current_path <> 1%nat ->
   direction = psub (ult current_path) (pen current_path)) /\
  exists disp,
    In disp displacements /\
    n = padd (ult current_path) (pscale step disp) /\
    ~ dot disp direction < 0 /\
    no_obstacles design (ult current_path, n) = true /\
    manhattan n (ult current_path) == Qabs step /\
    (0 <= step -> ~ dot (psub n (ult current_path)) direction < 0).
Proof.
  intros Hn direction. split; [| split].
  - intro H. unfold direction, travel_direction. rewrite H. reflexivity.
  - intro H. unfold direction, travel_direction.
    apply Nat.eqb_neq in H. rewrite H. reflexivity.
  - destruct (neighbors_spec _ _ _ _ _ Hn) as [disp [Hd [-> [Hdot Hclear]]]].
    fold direction in Hdot.
    exists disp. repeat split; try assumption.
    + apply Qle_not_lt. exact Hdot.
    + apply manhattan_unit_step. exact Hd.
    + intro Hs. apply Qle_not_lt.
      assert (E : dot (psub (padd (ult current_path) (pscale step disp))
                            (ult current_path)) direction
                  == step * dot disp direction).
      { unfold dot, psub, padd, pscale. cbn [fst snd]. ring. }
      rewrite E. apply Qmult_le_0_compat; assumption.
Qed.

Lemma neighbors_never_backwards_witness :
  exists disp,
    In disp displacements /\
    (1, 0) = padd (ult [(0, 0)]) (pscale 1 disp) /\
    ~ dot disp (travel_direction (1, 0) [(0, 0)]) < 0.
Proof.
  assert (Hin : In (1, 0) (neighbors [] 1 (1, 0) [(0, 0)])).
  { vm_compute. right. right. left. reflexivity. }
  destruct (neighbors_never_backwards [] 1 (1, 0) [(0, 0)] (1, 0) Hin)
    as [_ [_ [disp [H1 [H2 [H3 _]]]]]].
  exists disp. repeat split; assumption.
Defined.

(** ** Routes of the direct/elbow router *)

Lemma all_clear_cons (design : list bounds) (a b : point) (rest : list point) :
  no_obstacles design (a, b) = true ->
  all_clear design (b :: rest) ->
  all_clear design (a :: b :: rest).
Proof. intros H1 H2. constructor; assumption. Qed.

Lemma all_clear_single (design : list bounds) (a : point) : all_clear design [a].
Proof. constructor. Qed.

Create HintDb route.
#[local] Hint Resolve all_clear_cons all_clear_single : route.

(** A route of [getpts_simple] is empty, or leads from [start] to [end]
    through clear segments only. *)
Lemma getpts_simple_route (design : list bounds) (sd start end_ : point) :
  getpts_simple design sd start end_ = [] \/
  exists mid,
    getpts_simple design sd start end_ = start :: mid ++ [end_] /\
    all_clear design (start :: mid ++ [end_]).
Proof.
  unfold getpts_simple.
  destruct (Qle_bool 0 _); [| left; reflexivity].
  destruct (_ && no_obstacles design (start, end_)) eqn:H1.
  { right. exists []. apply andb_true_iff in H1. destruct H1 as [_ H1].
    split; [reflexivity |]. cbn [app]. auto with route. }
  destruct (no_obstacles design (start, (fst start, snd end_))
            && no_obstacles design ((fst start, snd end_), end_)) eqn:H2.
  { right. exists [(fst start, snd end_)].
    apply andb_true_iff in H2. destruct H2.
    split; [reflexivity |]. cbn [app]. auto with route. }
  destruct (no_obstacles design (start, (fst end_, snd start))
            && no_obstacles design ((fst end_, snd start), end_)) eqn:H3.
  { right. exists [(fst end_, snd start)].
    apply andb_true_iff in H3. destruct H3.
    split; [reflexivity |]. cbn [app]. auto with route. }
  destruct (if Qle_bool _ _ then _ else _) as [newpt3 newpt4].
  destruct (no_obstacles design (start, newpt3)) eqn:H4; [| left; reflexivity].
  destruct (no_obstacles design (newpt3, newpt4)) eqn:H5; [| left; reflexivity].
  destruct (no_obstacles design (newpt4, end_)) eqn:H6; [| left; reflexivity].
  right. exists [newpt3; newpt4]. split; [reflexivity |].
  cbn [app]. auto with route.
Qed.

Lemma segments_snoc_cons (a : list point) (c : point) (b : list point) :
  segments (a ++ c :: b) = segments (a ++ [c]) ++ segments (c :: b).
Proof.
  induction a as [| x a IH]; [reflexivity |].
  destruct a as [| y a].
  - cbn [app segments]. reflexivity.
  - change ((x :: y :: a) ++ c :: b) with (x :: (y :: a) ++ c :: b).
    change ((x :: y :: a) ++ [c]) with (x :: (y :: a) ++ [c]).
    cbn [segments app] in IH |- *. rewrite IH. reflexivity.
Qed.

Lemma all_clear_join (design : list bounds) (a : list point) (c : point)
    (b : list point) :
  all_clear design (a ++ [c]) -> all_clear design (c :: b) ->
  all_clear design (a ++ c :: b).
Proof.
  unfold all_clear. intros H1 H2. rewrite segments_snoc_cons.
  apply Forall_app. split; assumption.
Qed.

Lemma last_app_cons (a : list point) (c : point) (b : list point) (d : point) :
  last (a ++ c :: b) d = last (c :: b) d.
Proof.
  induction a as [| x a IH]; [reflexivity |].
  cbn [app]. rewrite <- IH. destruct (a ++ c :: b) eqn:E; [| reflexivity].
  destruct a; discriminate E.
Qed.

Lemma last_cons_default (l : list point) (x d : point) :
  last (x :: l) d = last l x.
Proof.
  revert x d. induction l as [| y l IH]; intros x d; [reflexivity |].
  change (last (x :: y :: l) d) with (last (y :: l) d).
  rewrite (IH y d), (IH y x). reflexivity.
Qed.

Lemma ult_snoc (l : list point) (x : point) : ult (l ++ [x]) = x.
Proof. unfold ult. apply last_last. Qed.

(** ** The composer on direct hops *)

(** When every hop is resolved by [getpts_simple], the loop of [make]
    returns, whatever the step size and the iteration bound, and every
    segment it adds is clear. *)
Lemma route_loop_direct (fuel : nat) (design : list bounds) (step : Q)
    (coords : list point) :
  forall (pre : list point) (tail : point),
    direct_hops design tail coords ->
    exists ext,
      route_loop fuel design step (pre ++ [tail]) coords
        = Returned (pre ++ tail :: ext) /\
      all_clear design (tail :: ext) /\
      last (tail :: ext) (0, 0) = last coords tail.
Proof.
  induction coords as [| coord rest IH]; intros pre tail Hd.
  - exists []. cbn [route_loop]. repeat split. apply all_clear_single.
  - destruct Hd as [Hne Hd]. cbn [route_loop]. rewrite ult_snoc.
    destruct (getpts_simple_route design (psub coord tail) tail coord)
      as [E | [mid [E Hc]]]; [contradiction |].
    rewrite E. cbn [drop_first tl].
    destruct (IH (pre ++ tail :: mid) coord Hd) as [ext [Er [Hc' Hl]]].
    exists (mid ++ coord :: ext).
    replace ((pre ++ [tail]) ++ mid ++ [coord])
      with ((pre ++ tail :: mid) ++ [coord])
      by (rewrite <- !app_assoc; reflexivity).
    rewrite Er. repeat split.
    + rewrite <- app_assoc. reflexivity.
    + apply (all_clear_join design (tail :: mid) coord ext); assumption.
    + change (tail :: mid ++ coord :: ext) with ((tail :: mid) ++ coord :: ext).
      rewrite last_app_cons, Hl. symmetry. apply last_cons_default.
Qed.

(** C3, as stated, fails, in three ways.  First design: the lead-in
    segment from (-1,0) to (0,0) crosses the box, and is emitted.  Second
    design: the direct router finds no route from (0,0) to (2, 5e-9); the
    search walks (0,0), (1,0), (2,0), merges the collinear points and
    replaces (2,0) by the end point, so that the emitted segment from (0,0)
    to (2, 5e-9) crosses the left edge of the box; the final segment to the
    pin at (3, 5e-9) crosses its right edge. *)
Lemma make_emits_blocked_segments :
  (let design : list bounds := [(-3 # 4, -1, -1 # 4, 1)] in
   let p := mkOptions 1 1 0 1 [] in
   let c1 := mkConnector (-1, 0) (1, 0) in
   let c2 := mkConnector (3, 0) (-1, 0) in
   exists a b c d,
     make 10 design p c1 c2 = Returned [a; b; c; d] /\
     pt_eq a (-1, 0) /\ pt_eq b (0, 0) /\
     no_obstacles design (a, b) = false) /\
  (let design : list bounds := [(3 # 2, 1 # 1000000000, 5 # 2, 1)] in
   let p := mkOptions 1 1 0 1 [] in
   let c1 := mkConnector (-1, 0) (1, 0) in
   let c2 := mkConnector (3, 5 # 1000000000) (-1, 0) in
   exists a b c d,
     make 10 design p c1 c2 = Returned [a; b; c; d] /\
     pt_eq b (0, 0) /\ pt_eq c (2, 5 # 1000000000) /\
     pt_eq d (3, 5 # 1000000000) /\
     getpts_simple design (psub c b) b c = [] /\
     no_obstacles design (b, c) = false /\
     no_obstacles design (c, d) = false).
Proof.
  split; cbv zeta; do 4 eexists;
    (split; [vm_compute; reflexivity | repeat split; reflexivity]).
Qed.

(** Whatever resolves the hops, the loop of [make] only appends the
    vertices of each hop, and every hop that [getpts_simple] resolves
    appends segments that pass [no_obstacles]. *)
Lemma route_loop_hops (fuel : nat) (design : list bounds) (step : Q)
    (coords : list point) :
  forall (pre : list point) (tail : point) (route : list point),
    route_loop fuel design step (pre ++ [tail]) coords = Returned route ->
    exists hops,
      route = pre ++ tail :: concat hops /\
      simple_hops_clear design tail coords hops.
Proof.
  induction coords as [| coord rest IH]; intros pre tail route.
  - intros [= <-]. exists []. split; [reflexivity | exact I].
  - cbn [route_loop]. rewrite ult_snoc.
    assert (Hgo : forall hop,
               route_loop fuel design step ((pre ++ [tail]) ++ hop) rest
                 = Returned route ->
               exists hops',
                 route = pre ++ tail :: concat (hop :: hops') /\
                 simple_hops_clear design (last hop tail) rest hops').
    { intros hop Hret.
      assert (E : (pre ++ [tail]) ++ hop
                  = removelast ((pre ++ [tail]) ++ hop) ++ [last hop tail]).
      { destruct hop as [| x hop].
        - rewrite app_nil_r, removelast_last. reflexivity.
        - set (L := (pre ++ [tail]) ++ x :: hop).
          assert (HL : L <> []) by (subst L; destruct pre; discriminate).
          rewrite (app_removelast_last tail HL) at 1. f_equal. f_equal.
          subst L. apply last_app_cons. }
      rewrite E in Hret.
      destruct (IH _ _ _ Hret) as [hops' [Er Hh]].
      exists hops'. split; [| exact Hh].
      rewrite Er. cbn [concat].
      change (last hop tail :: concat hops')
        with ([last hop tail] ++ concat hops').
      rewrite app_assoc, <- E, <- !app_assoc. reflexivity. }
    destruct (getpts_simple_route design (psub coord tail) tail coord)
      as [E | [mid [E Hc]]]; rewrite E.
    + destruct (getpts_astar fuel design (psub coord tail) tail coord step)
        as [path | |]; try discriminate.
      intro Hret. destruct (Hgo (drop_first path) Hret) as [hops' [Er Hh]].
      exists (drop_first path :: hops'). split; [exact Er |].
      cbn [simple_hops_clear]. split; [| exact Hh].
      intro Hne. contradiction Hne.
    + cbn [drop_first tl]. intro Hret.
      destruct (Hgo (mid ++ [coord]) Hret) as [hops' [Er Hh]].
      exists ((mid ++ [coord]) :: hops'). split; [exact Er |].
      cbn [simple_hops_clear]. split; [| exact Hh].
      intros _. split; [exact E | exact Hc].
Qed.

(** C3, amended: every segment of a hop that the composer resolves with
    [getpts_simple] passes [no_obstacles], whatever resolves the other
    hops: a route that [make] returns is the pin at the start, the lead-in
    point, the vertices of the hops in turn and the pin at the end, and
    each hop of [getpts_simple] contributes its own clear route.  In
    particular, when every hop is resolved by [getpts_simple], [make]
    returns for every iteration bound and every segment from the lead-in
    point to the lead-out point passes [no_obstacles]. *)
Theorem make_direct_hops_clear (fuel : nat) (design : list bounds)
    (p : options) (c1 c2 : connector) :
  (forall route,
     make fuel design p c1 c2 = Returned route ->
     exists hops,
       route = middle c1 :: leadin_point p c1 :: concat hops ++ [middle c2] /\
       simple_hops_clear design (leadin_point p c1)
         (anchors p ++ [leadout_point p c2]) hops) /\
  (direct_hops design (leadin_point p c1) (anchors p ++ [leadout_point p c2]) ->
   exists mid,
     make fuel design p c1 c2
       = Returned (middle c1 :: (leadin_point p c1 :: mid) ++ [middle c2]) /\
     all_clear design (leadin_point p c1 :: mid) /\
     last (leadin_point p c1 :: mid) (0, 0) = leadout_point p c2).
Proof.
  split.
  - intro route. unfold make.
    destruct (route_loop fuel design (step_size p)
                [middle c1; leadin_point p c1]
                (anchors p ++ [leadout_point p c2])) as [pts | |] eqn:Hloop;
      try discriminate.
    intros [= <-].
    destruct (route_loop_hops fuel design (step_size p) _ [middle c1]
                (leadin_point p c1) pts Hloop) as [hops [-> Hh]].
    exists hops. split; [reflexivity | exact Hh].
  - intro Hd. unfold make.
    destruct (route_loop_direct fuel design (step_size p) _ [middle c1] _ Hd)
      as [ext [E [Hc Hl]]].
    exists ext. cbn [app] in E. rewrite E. repeat split.
    + exact Hc.
    + rewrite Hl. apply last_last.
Qed.

Lemma make_direct_hops_clear_witness :
  (exists route hops,
     make 100 [(3 # 2, 1 # 1000000000, 5 # 2, 1)]
          (mkOptions 1 1 0 1 [(0, -3)])
          (mkConnector (-1, 0) (1, 0))
          (mkConnector (3, 5 # 1000000000) (-1, 0))
       = Returned route /\
     route = (-1, 0)
               :: leadin_point (mkOptions 1 1 0 1 [(0, -3)])
                               (mkConnector (-1, 0) (1, 0))
               :: concat hops ++ [(3, 5 # 1000000000)] /\
     simple_hops_clear [(3 # 2, 1 # 1000000000, 5 # 2, 1)]
       (leadin_point (mkOptions 1 1 0 1 [(0, -3)]) (mkConnector (-1, 0) (1, 0)))
       ([(0, -3)]
        ++ [leadout_point (mkOptions 1 1 0 1 [(0, -3)])
                          (mkConnector (3, 5 # 1000000000) (-1, 0))])
       hops) /\
  (exists mid,
     make 0 [(-3 # 4, -1, -1 # 4, 1)] (mkOptions 1 1 0 1 [(1, 1)])
          (mkConnector (-1, 0) (1, 0)) (mkConnector (3, 0) (-1, 0))
       = Returned ((-1, 0) :: (leadin_point (mkOptions 1 1 0 1 [(1, 1)])
                                 (mkConnector (-1, 0) (1, 0)) :: mid)
                            ++ [(3, 0)]) /\
     all_clear [(-3 # 4, -1, -1 # 4, 1)]
       (leadin_point (mkOptions 1 1 0 1 [(1, 1)]) (mkConnector (-1, 0) (1, 0))
          :: mid)).
Proof.
  split.
  - destruct (make_direct_hops_clear 100 [(3 # 2, 1 # 1000000000, 5 # 2, 1)]
                (mkOptions 1 1 0 1 [(0, -3)])
                (mkConnector (-1, 0) (1, 0))
                (mkConnector (3, 5 # 1000000000) (-1, 0))) as [H _].
    match type of H with
    | forall route, ?m = Returned route -> _ =>
        assert (E : exists r, m = Returned r) by (eexists; vm_compute; reflexivity)
    end.
    destruct E as [r E]. destruct (H r E) as [hops [Er Hh]].
    exists r, hops. split; [exact E | split; [exact Er | exact Hh]].
  - destruct (make_direct_hops_clear 0 [(-3 # 4, -1, -1 # 4, 1)]
                (mkOptions 1 1 0 1 [(1, 1)])
                (mkConnector (-1, 0) (1, 0)) (mkConnector (3, 0) (-1, 0)))
      as [_ H].
    destruct H as [mid [E [Hc _]]].
    + cbn [anchors app direct_hops]. split; [| split; [| exact I]];
        vm_compute; discriminate.
    + exists mid. split; [exact E | exact Hc].
Defined.

(** ** Exhausted searches *)

(** C4, as stated, fails: the lead-in point (0,0) lies inside a box, so
    the direct router fails and the search finds no neighbor and empties
    its frontier; [make] nevertheless returns a route, made of the start
    pin, the lead-in point and the end pin, without the lead-out point
    (5,5). *)
Lemma make_returns_shortened_route :
  let design : list bounds := [(-1 # 2, -1 # 2, 1 # 2, 1 # 2)] in
  let p := mkOptions 1 1 0 1 [] in
  let c1 := mkConnector (-1, 0) (1, 0) in
  let c2 := mkConnector (6, 5) (-1, 0) in
  let tail := leadin_point p c1 in
  let target := leadout_point p c2 in
  pt_eq target (5, 5) /\
  getpts_simple design (psub target tail) tail target = [] /\
  getpts_astar 10 design (psub target tail) tail target (step_size p)
    = Returned [] /\
  exists a b c,
    make 10 design p c1 c2 = Returned [a; b; c] /\
    pt_eq a (-1, 0) /\ pt_eq b (0, 0) /\ pt_eq c (6, 5).
Proof.
  cbv zeta. split; [split; reflexivity |].
  split; [vm_compute; reflexivity |].
  split; [vm_compute; reflexivity |].
  do 3 eexists. split; [vm_compute; reflexivity | repeat split; reflexivity].
Qed.

(** C4, amended: when the frontier is empty the search returns the empty
    list; a hop on which the direct router fails and the search returns
    the empty list adds nothing to the route, and the composer goes on with
    the remaining targets from the unchanged route, exactly as if the
    target of the hop had not been given. *)
Theorem exhausted_hop_is_skipped (fuel : nat) (design : list bounds)
    (step : Q) (pts : list point) (coord : point) (rest : list point) :
  (forall (sd end_ : point) (st : astar_state),
     h st = [] ->
     astar_loop (S fuel) design sd end_ step st = Returned []) /\
  (getpts_simple design (psub coord (ult pts)) (ult pts) coord = [] ->
   getpts_astar fuel design (psub coord (ult pts)) (ult pts) coord step
     = Returned [] ->
   route_loop fuel design step pts (coord :: rest)
     = route_loop fuel design step pts rest).
Proof.
  split.
  - intros sd end_ st Hh. cbn [astar_loop]. rewrite Hh. reflexivity.
  - intros Hs Ha. cbn [route_loop]. rewrite Hs, Ha.
    cbn [drop_first tl]. rewrite app_nil_r. reflexivity.
Qed.

Lemma exhausted_hop_is_skipped_witness :
  route_loop 10 [(-1 # 2, -1 # 2, 1 # 2, 1 # 2)] 1 [(-1, 0); (0, 0)]
             [(5, 5); (0, 3)]
  = route_loop 10 [(-1 # 2, -1 # 2, 1 # 2, 1 # 2)] 1 [(-1, 0); (0, 0)]
               [(0, 3)].
Proof.
  apply (proj2 (exhausted_hop_is_skipped 10 [(-1 # 2, -1 # 2, 1 # 2, 1 # 2)] 1
                  [(-1, 0); (0, 0)] (5, 5) [(0, 3)])).
  - vm_compute. reflexivity.
  - vm_compute. reflexivity.
Defined.

(** ** Configurations that are not validated *)

(** C8, as stated, fails: with step size -1 and lead lengths -1, [make]
    runs the direct router, then the search with step size -1, and returns
    a route. *)
Lemma make_accepts_invalid_configuration :
  let design : list bounds := [(-1 # 2, -1 # 2, 1 # 2, 1 # 2)] in
  let p := mkOptions (-1) (-1) 0 (-1) [] in
  let c1 := mkConnector (1, 0) (1, 0) in
  let c2 := mkConnector (5, 5) (1, 0) in
  let tail := leadin_point p c1 in
  let target := leadout_point p c2 in
  step_size p <= 0 /\ leadin_start p < 0 /\ leadin_end p < 0 /\
  getpts_simple design (psub target tail) tail target = [] /\
  getpts_astar 10 design (psub target tail) tail target (step_size p)
    = Returned [] /\
  exists a b c,
    make 10 design p c1 c2 = Returned [a; b; c] /\
    pt_eq a (1, 0) /\ pt_eq b (0, 0) /\ pt_eq c (5, 5).
Proof.
  cbv zeta. split; [discriminate |]. split; [reflexivity |].
  split; [reflexivity |].
  split; [vm_compute; reflexivity |].
  split; [vm_compute; reflexivity |].
  do 3 eexists. split; [vm_compute; reflexivity | repeat split; reflexivity].
Qed.

(** C8, amended: a non-positive step size or a negative lead length is
    not rejected.  With such a configuration, when every hop is resolved
    by the direct/elbow router, [make] returns a route that starts with
    the start pin and the lead-in point computed from the given lead
    length and ends with the end pin. *)
Theorem make_never_validates (fuel : nat) (design : list bounds)
    (p : options) (c1 c2 : connector) :
  step_size p <= 0 \/ leadin_start p < 0 \/ leadin_end p < 0 ->
  direct_hops design (leadin_point p c1) (anchors p ++ [leadout_point p c2]) ->
  exists rest,
    make fuel design p c1 c2
      = Returned (middle c1
                    :: padd (middle c1)
                         (pscale (cpw_width p / 2 + leadin_start p) (normal c1))
                    :: rest ++ [middle c2]).
Proof.
  intros _ Hd. unfold make.
  destruct (route_loop_direct fuel design (step_size p) _ [middle c1] _ Hd)
    as [ext [E _]].
  exists ext. cbn [app] in E. rewrite E. reflexivity.
Qed.

Lemma make_never_validates_witness :
  exists rest,
    make 0 [] (mkOptions (-1) (-1) 0 0 []) (mkConnector (1, 0) (1, 0))
         (mkConnector (5, 5) (1, 0))
    = Returned ((1, 0) :: padd (1, 0) (pscale (0 / 2 + -1) (1, 0))
                  :: rest ++ [(5, 5)]).
Proof.
  apply (make_never_validates 0 [] (mkOptions (-1) (-1) 0 0 [])
           (mkConnector (1, 0) (1, 0)) (mkConnector (5, 5) (1, 0))).
  - left. discriminate.
  - cbn [anchors app direct_hops]. split; [| exact I].
    vm_compute. discriminate.
Defined.

(** ** Numeric equality is respected *)

#[local] Instance Qmin_proper : Proper (Qeq ==> Qeq ==> Qeq) Qmin := Q.min_compat.
#[local] Instance Qmax_proper : Proper (Qeq ==> Qeq ==> Qeq) Qmax := Q.max_compat.

#[local] Instance Qgt_bool_proper : Proper (Qeq ==> Qeq ==> eq) Qgt_bool.
Proof. intros a a' Ha b b' Hb. unfold Qgt_bool. rewrite Ha, Hb. reflexivity. Qed.

#[local] Instance between_proper : Proper (Qeq ==> Qeq ==> Qeq ==> eq) between.
Proof.
  intros a a' Ha b b' Hb c c' Hc. unfold between. rewrite Ha, Hb, Hc. reflexivity.
Qed.



(** ** Symmetry of the kernel away from a common line *)

(** The order of the two segments matters to [overlapping] only when the
    four end points lie on one line, where the second comparison of the
    interval test is void (see [overlapping_vertical]). *)

Lemma intercepts_same_line (x0s y0s x0e y0e x1s y1s x1e y1e : Q) :
  ~ x0e - x0s == 0 -> ~ x1e - x1s == 0 ->
  (x1e - x1s) * (y0e - y0s) == (x0e - x0s) * (y1e - y1s) ->
  (y0s * x0e - y0e * x0s) / (x0e - x0s) == (y1s * x1e - y1e * x1s) / (x1e - x1s) ->
  same_line (x0s, y0s) (x0e, y0e) (x1s, y1s) (x1e, y1e).
Proof.
  intros N0 N1 Ep Eb.
  assert (Eb' : (y0s * x0e - y0e * x0s) * (x1e - x1s)
                == (y1s * x1e - y1e * x1s) * (x0e - x0s)).
  { assert (E0 : (y0s * x0e - y0e * x0s) * (x1e - x1s)
                 == (y0s * x0e - y0e * x0s) / (x0e - x0s) * ((x0e - x0s) * (x1e - x1s)))
      by (field; exact N0).
    rewrite E0, Eb. field. exact N1. }
  unfold same_line, cross, psub. cbn [fst snd]. split.
  - assert (Z : ((x0e - x0s) * (y1s - y0s) - (y0e - y0s) * (x1s - x0s)) * (x1e - x1s) == 0).
    { assert (R : ((x0e - x0s) * (y1s - y0s) - (y0e - y0s) * (x1s - x0s)) * (x1e - x1s)
                  == - x1s * ((x1e - x1s) * (y0e - y0s) - (x0e - x0s) * (y1e - y1s))
                     - ((y0s * x0e - y0e * x0s) * (x1e - x1s)
                        - (y1s * x1e - y1e * x1s) * (x0e - x0s))) by ring.
      rewrite R, Ep, Eb'. ring. }
    apply Qmult_integral in Z. destruct Z as [Z | Z]; [exact Z | contradiction].
  - assert (Z : ((x0e - x0s) * (y1e - y0s) - (y0e - y0s) * (x1e - x0s)) * (x1e - x1s) == 0).
    { assert (R : ((x0e - x0s) * (y1e - y0s) - (y0e - y0s) * (x1e - x0s)) * (x1e - x1s)
                  == - x1e * ((x1e - x1s) * (y0e - y0s) - (x0e - x0s) * (y1e - y1s))
                     - ((y0s * x0e - y0e * x0s) * (x1e - x1s)
                        - (y1s * x1e - y1e * x1s) * (x0e - x0s))) by ring.
      rewrite R, Ep, Eb'. ring. }
    apply Qmult_integral in Z. destruct Z as [Z | Z]; [exact Z | contradiction].
Qed.

Lemma intersection_point_symmetric (b0 b1 m0 m1 : Q) :
  ~ m0 - m1 == 0 ->
  (b0 - b1) / (m1 - m0) == (b1 - b0) / (m0 - m1) /\
  m1 * ((b0 - b1) / (m1 - m0)) + b1 == m0 * ((b1 - b0) / (m0 - m1)) + b0.
Proof.
  intro N. split; field; repeat split; try exact N; intro E; apply N; lra.
Qed.

Lemma overlapping_symmetric_off_line (a b c d : point) :
  ~ same_line a b c d -> overlapping a b c d = overlapping c d a b.
Proof.
  destruct a as [x0s y0s], b as [x0e y0e], c as [x1s y1s], d as [x1e y1e].
  intro Hline. unfold overlapping.
  destruct (Qeq_bool x0s x0e) eqn:E0; destruct (Qeq_bool x1s x1e) eqn:E1;
    cbn [andb orb]; try reflexivity.
  - apply Qeq_bool_iff in E0. apply Qeq_bool_iff in E1.
    destruct (Qeq_bool x0e x1s) eqn:E2.
    + exfalso. apply Hline. apply Qeq_bool_iff in E2.
      unfold same_line, cross, psub. cbn [fst snd]. split.
      * rewrite <- E2, E0. ring.
      * rewrite <- E1, <- E2, E0. ring.
    + assert (E3 : Qeq_bool x1e x0s = false).
      { apply Qeq_bool_false. apply Qeq_bool_false in E2. intro E. apply E2.
        rewrite <- E0, <- E, E1. reflexivity. }
      rewrite E3. reflexivity.
  - pose proof (difference_nonzero _ _ E0) as N0.
    pose proof (difference_nonzero _ _ E1) as N1.
    apply Qeq_bool_false in N0. apply Qeq_bool_false in N1.
    rewrite (Qeq_bool_comm ((x0e - x0s) * (y1e - y1s))).
    destruct (Qeq_bool ((x1e - x1s) * (y0e - y0s)) ((x0e - x0s) * (y1e - y1s))) eqn:Ep.
    + rewrite (Qeq_bool_comm ((y1s * x1e - y1e * x1s) / (x1e - x1s))).
      destruct (Qeq_bool ((y0s * x0e - y0e * x0s) / (x0e - x0s))
                         ((y1s * x1e - y1e * x1s) / (x1e - x1s))) eqn:Eb;
        [| reflexivity].
      exfalso. apply Hline. apply Qeq_bool_iff in Ep. apply Qeq_bool_iff in Eb.
      apply intercepts_same_line; assumption.
    + pose proof (slopes_differ _ _ _ _ N0 N1 Ep) as Nm.
      apply Qeq_bool_false in Nm. cbv zeta.
      set (b0 := (y0s * x0e - y0e * x0s) / (x0e - x0s)) in *.
      set (b1 := (y1s * x1e - y1e * x1s) / (x1e - x1s)) in *.
      set (m0 := (y0e - y0s) / (x0e - x0s)) in *.
      set (m1 := (y1e - y1s) / (x1e - x1s)) in *.
      destruct (intersection_point_symmetric b0 b1 m0 m1 Nm) as [Ex Ey].
      assert (Hx : forall lo hi,
                 between lo ((b0 - b1) / (m1 - m0)) hi
                 = between lo ((b1 - b0) / (m0 - m1)) hi)
        by (intros; rewrite Ex; reflexivity).
      assert (Hy : forall lo hi,
                 between lo (m1 * ((b0 - b1) / (m1 - m0)) + b1) hi
                 = between lo (m0 * ((b1 - b0) / (m0 - m1)) + b0) hi)
        by (intros; rewrite Ey; reflexivity).
      rewrite !Hy, !Hx.
      repeat match goal with |- context [between ?lo ?x ?hi] =>
        destruct (between lo x hi) end; reflexivity.
Qed.

(** ** No zero-length segment from the direct/elbow router *)




(** ** Visited points and the grid *)

#[local] Instance pt_eq_equiv : Equivalence pt_eq.
Proof.
  split.
  - intro p. split; reflexivity.
  - intros p q [H1 H2]. split; symmetry; assumption.
  - intros p q r [H1 H2] [H3 H4]. split; etransitivity; eassumption.
Qed.

Lemma pt_eqb_iff (p q : point) : pt_eqb p q = true <-> pt_eq p q.
Proof.
  unfold pt_eqb, pt_eq. rewrite andb_true_iff, !Qeq_bool_iff. reflexivity.
Qed.

Lemma is_visited_true (p : point) (vs : list point) :
  is_visited p vs = true <-> InA pt_eq p vs.
Proof.
  unfold is_visited. rewrite existsb_exists, InA_alt.
  split; intros [u [H1 H2]]; exists u.
  - apply pt_eqb_iff in H2. split; assumption.
  - apply pt_eqb_iff in H1. split; assumption.
Qed.

Lemma is_visited_false (p : point) (vs : list point) :
  is_visited p vs = false <-> ~ InA pt_eq p vs.
Proof.
  rewrite <- is_visited_true. symmetry. apply not_true_iff_false.
Qed.

Lemma manhattan_compat (p p' q q' : point) :
  pt_eq p p' -> pt_eq q q' -> manhattan p q == manhattan p' q'.
Proof.
  intros [H1 H2] [H3 H4]. unfold manhattan. rewrite H1, H2, H3, H4. reflexivity.
Qed.

Lemma manhattan_self (p q : point) : pt_eq p q -> manhattan p q == 0.
Proof.
  intros [H1 H2]. unfold manhattan.
  assert (Z1 : fst p - fst q == 0) by lra.
  assert (Z2 : snd p - snd q == 0) by lra.
  rewrite Z1, Z2. reflexivity.
Qed.

Lemma on_grid_compat (start : point) (step : Q) (v v' : point) :
  pt_eq v v' -> on_grid start step v -> on_grid start step v'.
Proof.
  intros [H1 H2] [i [j [Hi Hj]]]. exists i, j. rewrite <- H1, <- H2. split; assumption.
Qed.

Lemma Qabs_scaled_integer (step : Q) (z : Z) :
  0 < step -> z <> 0%Z -> step <= Qabs (step * inject_Z z).
Proof.
  intros Hs Hz.
  assert (Hc : (1 <= z)%Z \/ (z <= -1)%Z) by lia.
  destruct Hc as [Hc | Hc].
  - rewrite Zle_Qle in Hc. change (inject_Z 1) with 1 in Hc.
    apply Qle_trans with (step * inject_Z z); [nra | apply Qle_Qabs].
  - rewrite Zle_Qle in Hc. change (inject_Z (-1)) with (-1%Q) in Hc.
    rewrite <- Qabs_opp.
    apply Qle_trans with (- (step * inject_Z z)); [nra | apply Qle_Qabs].
Qed.

Lemma grid_points_apart (start : point) (step : Q) (v n : point) :
  0 < step -> on_grid start step v -> on_grid start step n ->
  ~ pt_eq v n -> step <= manhattan v n.
Proof.
  intros Hs [i [j [Hvi Hvj]]] [i' [j' [Hni Hnj]]] Hne.
  unfold manhattan.
  assert (Ex : fst v - fst n == step * inject_Z (i - i')).
  { rewrite Hvi, Hni. unfold Z.sub. rewrite inject_Z_plus, inject_Z_opp. ring. }
  assert (Ey : snd v - snd n == step * inject_Z (j - j')).
  { rewrite Hvj, Hnj. unfold Z.sub. rewrite inject_Z_plus, inject_Z_opp. ring. }
  rewrite Ex, Ey.
  destruct (Z.eq_dec (i - i') 0) as [Zi | Zi].
  - destruct (Z.eq_dec (j - j') 0) as [Zj | Zj].
    + exfalso. apply Hne. split.
      * assert (Z0 : fst v - fst n == 0) by (rewrite Ex, Zi; ring). lra.
      * assert (Z0 : snd v - snd n == 0) by (rewrite Ey, Zj; ring). lra.
    + pose proof (Qabs_scaled_integer step _ Hs Zj).
      pose proof (Qabs_nonneg (step * inject_Z (i - i'))). lra.
  - pose proof (Qabs_scaled_integer step _ Hs Zi).
    pose proof (Qabs_nonneg (step * inject_Z (j - j'))). lra.
Qed.

(** ** Lists *)

Lemma In_removelast (v : point) (l : list point) :
  In v (removelast l) -> In v l.
Proof.
  induction l as [| x l IH]; [intros [] |].
  destruct l as [| y l]; [intros [] |].
  change (removelast (x :: y :: l)) with (x :: removelast (y :: l)).
  intros [<- | H]; [left; reflexivity | right; apply IH; exact H].
Qed.

Lemma NoDupA_removelast (l : list point) :
  NoDupA pt_eq l -> NoDupA pt_eq (removelast l).
Proof.
  intro H. destruct l as [| a l0]; [exact H |].
  destruct (exists_last (l := a :: l0)) as [l' [x E]]; [discriminate |].
  rewrite E in H |- *. rewrite removelast_last.
  apply NoDupA_split in H. rewrite app_nil_r in H. exact H.
Qed.

Lemma In_ult (start : point) (rest : list point) :
  In (ult (start :: rest)) (start :: rest).
Proof.
  unfold ult. destruct (exists_last (l := start :: rest)) as [l' [x E]];
    [discriminate |].
  rewrite E, last_last. apply in_or_app. right. left. reflexivity.
Qed.

(** ** Paths of the search *)

Lemma extend_path_prefix (path : list point) (n : point) :
  exists prefix,
    extend_path path n = prefix ++ [n] /\
    (prefix = path \/ (prefix = removelast path /\ (1 < length path)%nat)).
Proof.
  unfold extend_path. destruct (Nat.ltb 1 (length path)) eqn:E.
  - apply Nat.ltb_lt in E.
    destruct (ult path) as [x_ult y_ult], (pen path) as [x_pen y_pen],
             n as [x_cur y_cur].
    destruct (Qeq_bool _ _).
    + exists (removelast path). split; [reflexivity | right; split; [reflexivity | exact E]].
    + exists path. split; [reflexivity | left; reflexivity].
  - exists path. split; [reflexivity | left; reflexivity].
Qed.

Section StoredPaths.

Variable design : list bounds.
Variables start_direction start end_ : point.
Variable step : Q.

Lemma path_ok_mono (vs path : list point) (n : point) :
  path_ok start end_ vs path -> path_ok start end_ (n :: vs) path.
Proof.
  intros [Hh Hv Hd Hf]. split; try assumption.
  intros v Hin. unfold is_visited. cbn [existsb].
  apply orb_true_iff. right. apply Hv. exact Hin.
Qed.

Lemma path_ok_prefix (vs path prefix : list point) :
  path_ok start end_ vs path ->
  prefix = path \/ (prefix = removelast path /\ (1 < length path)%nat) ->
  path_ok start end_ vs prefix.
Proof.
  intros Hp [-> | [-> Hlen]]; [exact Hp |].
  destruct Hp as [[rest ->] Hv Hd Hf].
  destruct rest as [| y rest]; [cbn in Hlen; lia |].
  change (removelast (start :: y :: rest)) with (start :: removelast (y :: rest)).
  split.
  - eexists. reflexivity.
  - intros v Hin. apply Hv.
    change (In v (removelast (start :: y :: rest))) in Hin.
    apply In_removelast. exact Hin.
  - apply (NoDupA_removelast (start :: y :: rest)). exact Hd.
  - intros v Hin. apply Hf. cbn [tl] in Hin |- *. apply In_removelast. exact Hin.
Qed.

Lemma path_ok_snoc (vs prefix : list point) (n : point) :
  path_ok start end_ vs prefix ->
  is_visited n vs = false ->
  tolerance <= manhattan end_ n ->
  path_ok start end_ (n :: vs) (prefix ++ [n]).
Proof.
  intros [[rest ->] Hv Hd Hf] Hn Hfar. split.
  - eexists. reflexivity.
  - intros v Hin. unfold is_visited. cbn [existsb]. apply orb_true_iff.
    apply in_app_or in Hin. destruct Hin as [Hin | [<- | []]].
    + right. apply Hv. exact Hin.
    + left. apply pt_eqb_iff. reflexivity.
  - apply NoDupA_app; [apply pt_eq_equiv | exact Hd | repeat constructor; intro Hx; inversion Hx |].
    intros x Hx Hxn. apply is_visited_false in Hn. apply Hn.
    apply InA_singleton in Hxn. apply InA_alt in Hx.
    destruct Hx as [v [Hxv Hin]]. apply Hv in Hin. apply is_visited_true in Hin.
    apply (InA_eqA pt_eq_equiv (x := v)); [| exact Hin].
    rewrite <- Hxv. exact Hxn.
  - intros v Hin. cbn [app tl] in Hin. apply in_app_or in Hin.
    destruct Hin as [Hin | [<- | []]]; [apply Hf; exact Hin | exact Hfar].
Qed.

Hypothesis safe : ~ pt_eq start end_ \/ tolerance <= step.

Lemma snapped_route_good (vs prefix : list point) (n : point) :
  path_ok start end_ vs prefix ->
  (forall v, In v vs -> on_grid start step v) ->
  on_grid start step n ->
  is_visited n vs = false ->
  manhattan end_ n < tolerance ->
  good_route start end_ (prefix ++ [end_]).
Proof.
  intros [[rest ->] Hv Hd Hf] Hgrid Hn Hnv Hnear.
  exists rest. split; [reflexivity |].
  apply NoDupA_app; [apply pt_eq_equiv | exact Hd | repeat constructor; intro Hx; inversion Hx |].
  intros x Hx Hxe. apply InA_singleton in Hxe. apply InA_alt in Hx.
  destruct Hx as [v [Hxv Hin]].
  assert (Hev : pt_eq end_ v) by (rewrite <- Hxe; exact Hxv).
  assert (tol_pos : 0 < tolerance) by reflexivity.
  destruct safe as [Hse | Hstep].
  - destruct Hin as [<- | Hin].
    + apply Hse. symmetry. exact Hev.
    + specialize (Hf v Hin). rewrite (manhattan_self _ _ Hev) in Hf. lra.
  - pose proof (Hv v Hin) as Hvis. apply is_visited_true in Hvis.
    apply InA_alt in Hvis. destruct Hvis as [u [Hvu Hu]].
    assert (Gv : on_grid start step v).
    { apply (on_grid_compat start step u); [symmetry; exact Hvu | apply Hgrid; exact Hu]. }
    assert (Hvn : ~ pt_eq v n).
    { intro E. apply is_visited_false in Hnv. apply Hnv.
      apply InA_alt. exists u. split; [| exact Hu].
      rewrite <- E. exact Hvu. }
    assert (Hs : 0 < step) by lra.
    pose proof (grid_points_apart start step v n Hs Gv Hn Hvn) as Hfar.
    rewrite <- (manhattan_compat end_ v n n Hev) in Hfar by reflexivity.
    lra.
Qed.

End StoredPaths.

(** ** The invariant of the search *)

Lemma on_grid_step (start : point) (step : Q) (v disp : point) :
  on_grid start step v -> In disp displacements ->
  on_grid start step (padd v (pscale step disp)).
Proof.
  intros [i [j [Hi Hj]]] Hd. cbn [displacements In] in Hd.
  destruct Hd as [<- | [<- | [<- | [<- | []]]]]; unfold padd, pscale; cbn [fst snd].
  - exists i, (j + 1)%Z. cbn [fst snd]. rewrite inject_Z_plus, Hi, Hj.
    change (inject_Z 1) with 1. split; ring.
  - exists i, (j + -1)%Z. cbn [fst snd]. rewrite inject_Z_plus, Hi, Hj.
    change (inject_Z (-1)) with (-1%Q). split; ring.
  - exists (i + 1)%Z, j. cbn [fst snd]. rewrite inject_Z_plus, Hi, Hj.
    change (inject_Z 1) with 1. split; ring.
  - exists (i + -1)%Z, j. cbn [fst snd]. rewrite inject_Z_plus, Hi, Hj.
    change (inject_Z (-1)) with (-1%Q). split; ring.
Qed.

Lemma lookup_In (k : key) (m : list (key * (Q * list point)))
    (v : Q * list point) :
  lookup k m = Some v -> exists k', In (k', v) m.
Proof.
  induction m as [| [k' v'] m IH]; [discriminate |].
  cbn [lookup]. destruct (key_eqb k k').
  - intros [= ->]. exists k'. left. reflexivity.
  - intro H. destruct (IH H) as [k'' Hin]. exists k''. right. exact Hin.
Qed.

Section Invariant.

Variable design : list bounds.
Variables start_direction start end_ : point.
Variable step : Q.
Hypothesis safe : ~ pt_eq start end_ \/ tolerance <= step.

Lemma visit_neighbors_inv (len : Q) (current_path : list point)
    (ns : list point) :
  forall st,
    astar_inv start end_ step st ->
    path_ok start end_ (visited st) current_path ->
    (forall n, In n ns -> on_grid start step n) ->
    match visit_neighbors end_ step len current_path ns st with
    | inl p => good_route start end_ p
    | inr st' => astar_inv start end_ step st'
    end.
Proof.
  induction ns as [| n ns IH]; intros st Hinv Hpath Hns.
  - exact Hinv.
  - cbn [visit_neighbors].
    assert (Hns' : forall n', In n' ns -> on_grid start step n')
      by (intros n' H'; apply Hns; right; exact H').
    destruct (is_visited n (visited st)) eqn:Hvis.
    + apply IH; assumption.
    + destruct (extend_path_prefix current_path n) as [prefix [E Hprefix]].
      rewrite E.
      pose proof (path_ok_prefix start end_ _ _ _ Hpath Hprefix) as Hpre.
      destruct Hinv as [Hpaths Hgrid].
      destruct (Qlt_bool (manhattan end_ n) tolerance) eqn:Hgoal.
      * rewrite removelast_last. apply Qlt_bool_true in Hgoal.
        apply (snapped_route_good start end_ step safe (visited st) prefix n);
          try assumption.
        apply Hns. left. reflexivity.
      * apply Qlt_bool_false in Hgoal. apply IH.
        -- split; cbn [pathmapper visited].
           ++ intros k len' path [Hin | Hin].
              ** injection Hin as _ _ <-. apply path_ok_snoc; assumption.
              ** apply path_ok_mono. apply (Hpaths k len' path Hin).
           ++ intros v [<- | Hin]; [apply Hns; left; reflexivity | apply Hgrid; exact Hin].
        -- cbn [visited]. apply path_ok_mono. exact Hpath.
        -- exact Hns'.
Qed.

Lemma astar_loop_inv (fuel : nat) :
  forall st p,
    astar_inv start end_ step st ->
    astar_loop fuel design start_direction end_ step st = Returned p ->
    p = [] \/ good_route start end_ p.
Proof.
  induction fuel as [| fuel IH]; intros st p Hinv; [discriminate |].
  cbn [astar_loop].
  destruct (heappop (h st)) as [[k h'] |]; [| intros [= <-]; left; reflexivity].
  destruct (lookup k (pathmapper st)) as [[len path] |] eqn:Hlook; [| discriminate].
  destruct (lookup_In _ _ _ Hlook) as [k' Hin].
  pose proof Hinv as [Hpaths Hgrid].
  pose proof (Hpaths _ _ _ Hin) as Hpath.
  assert (Hns : forall n, In n (neighbors design step start_direction path) ->
                          on_grid start step n).
  { intros n Hn. apply neighbors_spec in Hn.
    destruct Hn as [disp [Hd [-> _]]].
    apply on_grid_step; [| exact Hd].
    destruct Hpath as [[rest ->] Hv _ _].
    pose proof (Hv _ (In_ult start rest)) as Hu.
    apply is_visited_true in Hu. apply InA_alt in Hu.
    destruct Hu as [u [Hu1 Hu2]].
    apply (on_grid_compat start step u); [symmetry; exact Hu1 | apply Hgrid; exact Hu2]. }
  pose proof (visit_neighbors_inv len path _
                (mkState h' (pathmapper st) (visited st))
                (conj Hpaths Hgrid) Hpath Hns) as Hstep.
  destruct (visit_neighbors end_ step len path _ _) as [q | st'].
  - intros [= <-]. right. exact Hstep.
  - intro Hret. apply (IH st' p Hstep Hret).
Qed.

Lemma initial_state_inv : astar_inv start end_ step (initial_state start end_).
Proof.
  unfold initial_state. split; cbn [pathmapper visited].
  - intros k len path [Hin | []]. injection Hin as _ _ <-. split.
    + exists []. reflexivity.
    + intros v [<- | []]. unfold is_visited. cbn [existsb].
      apply orb_true_iff. left. apply pt_eqb_iff. reflexivity.
    + repeat constructor. intro Hx. inversion Hx.
    + intros v [].
  - intros v [<- | []]. exists 0%Z, 0%Z.
    change (inject_Z 0) with 0. split; ring.
Qed.

Lemma getpts_astar_good (fuel : nat) (p : list point) :
  getpts_astar fuel design start_direction start end_ step = Returned p ->
  p = [] \/ good_route start end_ p.
Proof.
  unfold getpts_astar. apply astar_loop_inv. apply initial_state_inv.
Qed.

End Invariant.

(** ** Routes of the search *)

(** C10, amended: when [start] and [end] differ, the vertices of a path
    returned by [getpts_astar] are pairwise distinct, the final vertex
    [end] included, whatever the step size. *)
Theorem astar_route_distinct (fuel : nat) (design : list bounds)
    (start_direction start end_ : point) (step : Q) (path : list point) :
  ~ pt_eq start end_ ->
  getpts_astar fuel design start_direction start end_ step = Returned path ->
  NoDupA pt_eq path.
Proof.
  intros Hne Hret.
  destruct (getpts_astar_good design start_direction start end_ step
              (or_introl Hne) fuel path Hret) as [-> | [rest [_ Hd]]].
  - constructor.
  - exact Hd.
Qed.

Lemma astar_route_distinct_witness :
  exists path,
    getpts_astar 1000 [(1, -1, 3, 1)] (4, 0) (0, 0) (4, 0) (1 # 2)
      = Returned path /\
    length path = 6%nat /\
    NoDupA pt_eq path.
Proof.
  eexists. split; [vm_compute; reflexivity |]. split; [reflexivity |].
  apply (astar_route_distinct 1000 [(1, -1, 3, 1)] (4, 0) (0, 0) (4, 0) (1 # 2)).
  - intros [H _]. discriminate H.
  - vm_compute. reflexivity.
Defined.

(** ** Zero-length segments *)








(** ** The model of the search: dictionary lookups and the iteration bound *)

Lemma key_eqb_refl (k : key) : key_eqb k k = true.
Proof.
  destruct k as [[f x] y]. unfold key_eqb. rewrite !Qeq_bool_refl. reflexivity.
Qed.

Lemma heap_min_In (k : key) (rest : list key) : In (heap_min k rest) (k :: rest).
Proof.
  revert k. induction rest as [| k' rest IH]; intro k; [left; reflexivity |].
  cbn [heap_min]. destruct (IH (if key_ltb k' k then k' else k)) as [E | Hin].
  - rewrite <- E. destruct (key_ltb k' k); [right; left | left]; reflexivity.
  - right. right. exact Hin.
Qed.

Lemma remove_one_subset (k x : key) (l : list key) :
  In x (remove_one k l) -> In x l.
Proof.
  induction l as [| k' l IH]; [intros [] |].
  cbn [remove_one]. destruct (key_eqb k k').
  - intro H. right. exact H.
  - intros [<- | H]; [left; reflexivity | right; apply IH; exact H].
Qed.

Lemma visit_neighbors_bound (end_ : point) (step len : Q)
    (path ns : list point) :
  forall st,
    heap_bound st ->
    match visit_neighbors end_ step len path ns st with
    | inl _ => True
    | inr st' => heap_bound st'
    end.
Proof.
  induction ns as [| n ns IH]; intros st Hb; [exact Hb |].
  cbn [visit_neighbors].
  destruct (is_visited n (visited st)); [apply IH; exact Hb |].
  destruct (Qlt_bool (manhattan end_ n) tolerance); [exact I |].
  apply IH. intros k [<- | Hin]; cbn [pathmapper lookup].
  - rewrite key_eqb_refl. eexists. reflexivity.
  - destruct (key_eqb k _); [eexists; reflexivity | apply Hb; exact Hin].
Qed.

(** The lookup [pathmapper[(tot_dist, x, y)]] never fails. *)
Lemma astar_loop_finds_paths (fuel : nat) (design : list bounds)
    (sd end_ : point) (step : Q) :
  forall st, heap_bound st -> astar_loop fuel design sd end_ step st <> KeyError.
Proof.
  induction fuel as [| fuel IH]; intros st Hb; [discriminate |].
  cbn [astar_loop].
  destruct (heappop (h st)) as [[k h'] |] eqn:Hpop; [| discriminate].
  unfold heappop in Hpop. destruct (h st) as [| k0 r] eqn:Hh; [discriminate |].
  injection Hpop as <- <-.
  destruct (Hb (heap_min k0 r)) as [[len path] Hl];
    [rewrite Hh; apply heap_min_In |].
  rewrite Hl.
  assert (Hb' : heap_bound (mkState (remove_one (heap_min k0 r) (k0 :: r))
                              (pathmapper st) (visited st))).
  { intros k Hin. cbn [h pathmapper] in Hin |- *. apply Hb. rewrite Hh.
    apply (remove_one_subset _ _ _ Hin). }
  pose proof (visit_neighbors_bound end_ step len path
                (neighbors design step sd path) _ Hb') as Hstep.
  destruct (visit_neighbors end_ step len path _ _) as [p | st'];
    [discriminate | apply IH; exact Hstep].
Qed.

Lemma getpts_astar_finds_paths (fuel : nat) (design : list bounds)
    (sd start end_ : point) (step : Q) :
  getpts_astar fuel design sd start end_ step <> KeyError.
Proof.
  apply astar_loop_finds_paths. intros k [<- | []].
  cbn [initial_state pathmapper lookup]. rewrite key_eqb_refl.
  eexists. reflexivity.
Qed.

(** A result does not depend on the iteration bound, once it is large
    enough for the search to return. *)
Lemma astar_loop_fuel_irrelevant (fuel : nat) (design : list bounds)
    (sd end_ : point) (step : Q) :
  forall st p extra,
    astar_loop fuel design sd end_ step st = Returned p ->
    astar_loop (fuel + extra) design sd end_ step st = Returned p.
Proof.
  induction fuel as [| fuel IH]; intros st p extra; [discriminate |].
  cbn [astar_loop Nat.add].
  destruct (heappop (h st)) as [[k h'] |]; [| trivial].
  destruct (lookup k (pathmapper st)) as [[len path] |]; [| trivial].
  destruct (visit_neighbors end_ step len path _ _) as [q | st'];
    [trivial | apply IH].
Qed.

(** * Further properties *)

(** ** The kernel on two vertical segments *)

(** X3: on two vertical segments [overlapping] uses no arithmetic but
    comparisons, and compares one pair of ends only: it returns [True]
    exactly when the two segments have the same abscissa and the least
    ordinate of the first does not exceed the greatest ordinate of the
    second.  The least ordinate of the second is never looked at. *)
Theorem overlapping_vertical_pair (a b c d : point) :
  fst a == fst b -> fst c == fst d ->
  (overlapping a b c d = true <->
   fst b == fst c /\ Qmin (snd a) (snd b) <= Qmax (snd c) (snd d)).
Proof.
  destruct a as [ax ay], b as [bx bY], c as [cx cy], d as [dx dy].
  cbn [fst snd]. intros Ha Hc. unfold overlapping.
  assert (E1 : Qeq_bool ax bx = true) by (apply Qeq_bool_iff; exact Ha).
  assert (E2 : Qeq_bool cx dx = true) by (apply Qeq_bool_iff; exact Hc).
  rewrite E1, E2. cbn [andb].
  assert (H : Qgt_bool (Qmin cy dy) (Qmax ay dy) = false).
  { apply Qgt_bool_false.
    apply Qle_trans with dy; [apply Q.le_min_r | apply Q.le_max_r]. }
  rewrite H, orb_false_r.
  destruct (Qeq_bool bx cx) eqn:E.
  - unfold Qgt_bool. rewrite negb_involutive, Qle_bool_iff.
    apply Qeq_bool_iff in E. tauto.
  - apply Qeq_bool_false in E. split; [discriminate | tauto].
Qed.

Lemma overlapping_vertical_pair_witness :
  overlapping (2, 3) (2, 4) (2, 7) (2, 9) = true <->
  2 == 2 /\ Qmin 3 4 <= Qmax 7 9.
Proof.
  apply (overlapping_vertical_pair (2, 3) (2, 4) (2, 7) (2, 9)); reflexivity.
Defined.

(** ** The clearance test and the order of the boxes *)

(** X6: the verdict of [no_obstacles] does not depend on the order in
    which the design lists its boxes. *)
Theorem no_obstacles_permutation (d1 d2 : list bounds) (seg : segment) :
  Permutation d1 d2 -> no_obstacles d1 seg = no_obstacles d2 seg.
Proof.
  unfold no_obstacles. induction 1 as [| x l l' _ IH | x y l | l l' l'' _ IH1 _ IH2].
  - reflexivity.
  - cbn [forallb]. rewrite IH. reflexivity.
  - cbn [forallb]. rewrite !andb_assoc, (andb_comm (negb (hits_box seg y))).
    reflexivity.
  - rewrite IH1. exact IH2.
Qed.

Lemma no_obstacles_permutation_witness :
  no_obstacles [(1, -1, 3, 1); (5, 5, 6, 6)] ((0, 0), (4, 0))
  = no_obstacles [(5, 5, 6, 6); (1, -1, 3, 1)] ((0, 0), (4, 0)).
Proof.
  apply (no_obstacles_permutation [(1, -1, 3, 1); (5, 5, 6, 6)]
           [(5, 5, 6, 6); (1, -1, 3, 1)] ((0, 0), (4, 0))).
  apply perm_swap.
Defined.

(** ** Routes of the direct/elbow router, case by case *)

Lemma getpts_simple_cases (design : list bounds) (sd s e : point) :
  getpts_simple design sd s e = [] \/
  (getpts_simple design sd s e = [s; e] /\
   (fst s == fst e \/ snd s == snd e)) \/
  getpts_simple design sd s e = [s; (fst s, snd e); e] \/
  getpts_simple design sd s e = [s; (fst e, snd s); e] \/
  getpts_simple design sd s e
    = [s; ((fst s + fst e) / 2, snd s); ((fst s + fst e) / 2, snd e); e] \/
  getpts_simple design sd s e
    = [s; (fst s, (snd s + snd e) / 2); (fst e, (snd s + snd e) / 2); e].
Proof.
  unfold getpts_simple.
  destruct (Qle_bool 0 (dot sd (psub e s))); [| left; reflexivity].
  destruct (Qeq_bool (fst s) (fst e) || Qeq_bool (snd s) (snd e)) eqn:Hs;
    cbn [andb].
  - destruct (no_obstacles design (s, e)).
    + right. left. split; [reflexivity |].
      apply orb_true_iff in Hs. rewrite !Qeq_bool_iff in Hs. exact Hs.
    + destruct (no_obstacles design (s, (fst s, snd e))
                && no_obstacles design ((fst s, snd e), e));
        [right; right; left; reflexivity |].
      destruct (no_obstacles design (s, (fst e, snd s))
                && no_obstacles design ((fst e, snd s), e));
        [right; right; right; left; reflexivity |].
      destruct (Qle_bool _ _);
        repeat match goal with
               | |- context [if no_obstacles ?d ?x then _ else _] =>
                   destruct (no_obstacles d x)
               end; auto 10.
  - destruct (no_obstacles design (s, (fst s, snd e))
              && no_obstacles design ((fst s, snd e), e));
      [right; right; left; reflexivity |].
    destruct (no_obstacles design (s, (fst e, snd s))
              && no_obstacles design ((fst e, snd s), e));
      [right; right; right; left; reflexivity |].
    destruct (Qle_bool _ _);
      repeat match goal with
             | |- context [if no_obstacles ?d ?x then _ else _] =>
                 destruct (no_obstacles d x)
             end; auto 10.
Qed.

(** ** A general invariant of the stored paths *)

Section PathInvariant.

Variable design : list bounds.
Variables start_direction start end_ : point.
Variable step : Q.
Variable P : list point -> Prop.

Hypothesis P_start : P [start].
Hypothesis P_extend :
  forall path n,
    P path -> In n (neighbors design step start_direction path) ->
    P (extend_path path n).

Lemma visit_neighbors_stored (len : Q) (current_path ns : list point) :
  P current_path ->
  forall st,
    (forall n, In n ns ->
               In n (neighbors design step start_direction current_path)) ->
    stored_paths P st ->
    match visit_neighbors end_ step len current_path ns st with
    | inl r => returned_from design start_direction end_ step P r
    | inr st' => stored_paths P st'
    end.
Proof.
  intro Hp. induction ns as [| n ns IH]; intros st Hns Hst; [exact Hst |].
  cbn [visit_neighbors].
  assert (Hn : In n (neighbors design step start_direction current_path))
    by (apply Hns; left; reflexivity).
  assert (Hns' : forall n', In n' ns ->
                   In n' (neighbors design step start_direction current_path))
    by (intros n' H'; apply Hns; right; exact H').
  destruct (is_visited n (visited st)); [apply IH; assumption |].
  destruct (Qlt_bool (manhattan end_ n) tolerance) eqn:Hgoal.
  - apply Qlt_bool_true in Hgoal. exists current_path, n. repeat split; assumption.
  - apply IH; [exact Hns' |].
    intros k len' path [Hin | Hin]; cbn [pathmapper] in Hin.
    + injection Hin as _ _ <-. apply P_extend; assumption.
    + apply (Hst k len' path Hin).
Qed.

Lemma astar_loop_stored (fuel : nat) :
  forall st r,
    stored_paths P st ->
    astar_loop fuel design start_direction end_ step st = Returned r ->
    r = [] \/ returned_from design start_direction end_ step P r.
Proof.
  induction fuel as [| fuel IH]; intros st r Hst; [discriminate |].
  cbn [astar_loop].
  destruct (heappop (h st)) as [[k h'] |]; [| intros [= <-]; left; reflexivity].
  destruct (lookup k (pathmapper st)) as [[len path] |] eqn:Hlook; [| discriminate].
  destruct (lookup_In _ _ _ Hlook) as [k' Hin].
  pose proof (visit_neighbors_stored len path
                (neighbors design step start_direction path)
                (Hst _ _ _ Hin)
                (mkState h' (pathmapper st) (visited st))
                (fun n H => H) Hst) as Hstep.
  destruct (visit_neighbors end_ step len path _ _) as [q | st'].
  - intros [= <-]. right. exact Hstep.
  - intro Hret. apply (IH st' r Hstep Hret).
Qed.

Lemma getpts_astar_stored (fuel : nat) (r : list point) :
  getpts_astar fuel design start_direction start end_ step = Returned r ->
  r = [] \/ returned_from design start_direction end_ step P r.
Proof.
  unfold getpts_astar. apply astar_loop_stored.
  intros k len path [Hin | []]. injection Hin as _ _ <-. exact P_start.
Qed.

End PathInvariant.

(** ** Lists of segments *)



(** ** Routes returned by the search *)

Lemma grid_path_extend (design : list bounds) (sd start : point) (step : Q)
    (path : list point) (n : point) :
  grid_path start step path ->
  In n (neighbors design step sd path) ->
  grid_path start step (extend_path path n).
Proof.
  intros [[rest Hhead] Hgrid] Hn.
  destruct (neighbors_spec _ _ _ _ _ Hn) as [disp [Hd [En _]]].
  assert (Gn : on_grid start step n).
  { rewrite En. apply on_grid_step; [| exact Hd].
    apply Hgrid. rewrite Hhead. apply In_ult. }
  destruct (extend_path_prefix path n) as [prefix [E [-> | [-> Hlen]]]];
    rewrite E; (split; [| intros v Hv; apply in_app_or in Hv;
                          destruct Hv as [Hv | [<- | []]]; [| exact Gn]]).
  - exists (rest ++ [n]). rewrite Hhead. reflexivity.
  - apply Hgrid. exact Hv.
  - rewrite Hhead in Hlen |- *. destruct rest as [| y rest]; [cbn in Hlen; lia |].
    change (removelast (start :: y :: rest)) with (start :: removelast (y :: rest)).
    eexists. reflexivity.
  - apply Hgrid. apply In_removelast. exact Hv.
Qed.

Lemma grid_path_start (start : point) (step : Q) : grid_path start step [start].
Proof.
  split; [exists []; reflexivity |].
  intros v [<- | []]. exists 0%Z, 0%Z. change (inject_Z 0) with 0. split; ring.
Qed.

Lemma prefix_head (start : point) (rest path prefix : list point) :
  path = start :: rest ->
  prefix = path \/ (prefix = removelast path /\ (1 < length path)%nat) ->
  exists rest', prefix = start :: rest'.
Proof.
  intros -> [-> | [-> Hlen]]; [exists rest; reflexivity |].
  destruct rest as [| y rest]; [cbn in Hlen; lia |].
  change (removelast (start :: y :: rest)) with (start :: removelast (y :: rest)).
  eexists. reflexivity.
Qed.

(** X8: a route returned by [getpts_astar] is empty, or it begins at
    [start] and ends at [end]; every vertex before the last lies on the
    grid of mesh [step_size] through [start], and [end] lies within the
    tolerance of a point of that grid. *)
Theorem astar_route_shape (fuel : nat) (design : list bounds)
    (sd start end_ : point) (step : Q) (r : list point) :
  getpts_astar fuel design sd start end_ step = Returned r ->
  r = [] \/
  exists mid n,
    r = start :: mid ++ [end_] /\
    (forall v, In v (start :: mid) -> on_grid start step v) /\
    on_grid start step n /\ manhattan end_ n < tolerance.
Proof.
  intro Hret.
  destruct (getpts_astar_stored design sd start end_ step (grid_path start step)
              (grid_path_start start step)
              (grid_path_extend design sd start step) fuel r Hret)
    as [-> | [path [n [Hp [Hn [Hnear ->]]]]]]; [left; reflexivity | right].
  pose proof (grid_path_extend design sd start step path n Hp Hn) as Hext.
  destruct (extend_path_prefix path n) as [prefix [E Hprefix]].
  rewrite E in Hext |- *. rewrite removelast_last.
  destruct Hp as [[rest Hhead] _].
  destruct (prefix_head start rest path prefix Hhead Hprefix) as [mid ->].
  destruct Hext as [_ Hgrid].
  exists mid, n. repeat split.
  - intros v Hv. apply Hgrid. apply in_or_app. left. exact Hv.
  - apply Hgrid. apply in_or_app. right. left. reflexivity.
  - exact Hnear.
Qed.

Lemma astar_route_shape_witness :
  exists r,
    getpts_astar 1000 [(1, -1, 3, 1)] (4, 0) (0, 0) (4, 0) (1 # 2) = Returned r /\
    (r = [] \/
     exists mid n,
       r = (0, 0) :: mid ++ [(4, 0)] /\
       (forall v, In v ((0, 0) :: mid) -> on_grid (0, 0) (1 # 2) v) /\
       on_grid (0, 0) (1 # 2) n /\ manhattan (4, 0) n < tolerance).
Proof.
  eexists. split; [vm_compute; reflexivity |].
  apply (astar_route_shape 1000 [(1, -1, 3, 1)] (4, 0) (0, 0) (4, 0) (1 # 2)).
  vm_compute. reflexivity.
Defined.







(** ** Expansions look forward, left and right *)

(** X10: when the direction of travel is not the zero vector, an expansion
    of the search generates at most three neighbors: a displacement and its
    opposite are never both kept. *)
Theorem neighbors_at_most_three (design : list bounds) (step : Q)
    (sd : point) (path : list point) :
  ~ pt_eq (travel_direction sd path) (0, 0) ->
  (length (neighbors design step sd path) <= 3)%nat.
Proof.
  unfold neighbors, pt_eq. destruct (travel_direction sd path) as [dx dy].
  cbn [fst snd]. intro Hne.
  cbn [displacements flat_map]. unfold dot. cbn [fst snd].
  destruct (Qle_bool 0 (0 * dx + 1 * dy)) eqn:H1;
    destruct (Qle_bool 0 (0 * dx + -1 * dy)) eqn:H2;
    destruct (Qle_bool 0 (1 * dx + 0 * dy)) eqn:H3;
    destruct (Qle_bool 0 (-1 * dx + 0 * dy)) eqn:H4;
    try (exfalso; apply Hne;
         apply Qle_bool_iff in H1; apply Qle_bool_iff in H2;
         apply Qle_bool_iff in H3; apply Qle_bool_iff in H4;
         split; lra);
    repeat match goal with
           | |- context [if no_obstacles ?d ?x then _ else _] =>
               destruct (no_obstacles d x)
           end;
    cbn [app length]; lia.
Qed.

Lemma neighbors_at_most_three_witness :
  le (length (neighbors [] 1 (1, 0) [(0, 0)])) 3.
Proof.
  apply (neighbors_at_most_three [] 1 (1, 0) [(0, 0)]).
  intros [H _]. vm_compute in H. discriminate H.
Defined.

(** ** The composer raises no [KeyError] and only appends *)

Lemma route_loop_finds_paths (fuel : nat) (design : list bounds) (step : Q)
    (coords : list point) :
  forall pts, route_loop fuel design step pts coords <> KeyError.
Proof.
  induction coords as [| coord rest IH]; intro pts; [discriminate |].
  cbn [route_loop].
  destruct (getpts_simple design _ _ coord); [| apply IH].
  pose proof (getpts_astar_finds_paths fuel design (psub coord (ult pts))
                (ult pts) coord step) as Hk.
  destruct (getpts_astar fuel design _ _ coord step);
    [apply IH | contradiction | discriminate].
Qed.

Lemma route_loop_appends (fuel : nat) (design : list bounds) (step : Q)
    (coords : list point) :
  forall pts route,
    route_loop fuel design step pts coords = Returned route ->
    exists ext, route = pts ++ ext.
Proof.
  induction coords as [| coord rest IH]; intros pts route.
  - intros [= <-]. exists []. symmetry. apply app_nil_r.
  - cbn [route_loop].
    destruct (getpts_simple design _ _ coord) as [| a l].
    + destruct (getpts_astar fuel design _ _ coord step) as [path | |];
        try discriminate.
      intro H. destruct (IH _ _ H) as [ext ->].
      eexists. rewrite <- app_assoc. reflexivity.
    + intro H. destruct (IH _ _ H) as [ext ->].
      eexists. rewrite <- app_assoc. reflexivity.
Qed.

(** ** Targets in line *)

Lemma dot_self_nonnegative (v : point) : 0 <= dot v v.
Proof.
  unfold dot. destruct v as [x y]. cbn [fst snd]. nra.
Qed.

Lemma hop_in_line (design : list bounds) (tail coord : point) :
  fst tail == fst coord \/ snd tail == snd coord ->
  no_obstacles design (tail, coord) = true ->
  getpts_simple design (psub coord tail) tail coord = [tail; coord].
Proof.
  intros Hs Hc. unfold getpts_simple.
  assert (Hd : Qle_bool 0 (dot (psub coord tail) (psub coord tail)) = true)
    by (apply Qle_bool_iff; apply dot_self_nonnegative).
  assert (Hb : Qeq_bool (fst tail) (fst coord) || Qeq_bool (snd tail) (snd coord) = true).
  { apply orb_true_iff. rewrite !Qeq_bool_iff. exact Hs. }
  rewrite Hd, Hb, Hc. reflexivity.
Qed.

Lemma route_loop_in_line (fuel : nat) (design : list bounds) (step : Q)
    (coords : list point) :
  forall pre tail,
    aligned_clear design tail coords ->
    route_loop fuel design step (pre ++ [tail]) coords
      = Returned ((pre ++ [tail]) ++ coords).
Proof.
  induction coords as [| coord rest IH]; intros pre tail Ha.
  - cbn [route_loop]. rewrite app_nil_r. reflexivity.
  - destruct Ha as [Hs [Hc Ha]]. cbn [route_loop]. rewrite ult_snoc.
    rewrite (hop_in_line design tail coord Hs Hc). cbn [drop_first tl].
    rewrite (IH (pre ++ [tail]) coord Ha). rewrite <- !app_assoc. reflexivity.
Qed.

(** ** Hops that succeed at the first attempt *)

Lemma hop_first_elbow (design : list bounds) (tail coord : point) :
  Qeq_bool (fst tail) (fst coord) || Qeq_bool (snd tail) (snd coord) = false ->
  no_obstacles design (tail, (fst tail, snd coord)) = true ->
  no_obstacles design ((fst tail, snd coord), coord) = true ->
  getpts_simple design (psub coord tail) tail coord
    = [tail; (fst tail, snd coord); coord].
Proof.
  intros Hb H1 H2. unfold getpts_simple.
  assert (Hd : Qle_bool 0 (dot (psub coord tail) (psub coord tail)) = true)
    by (apply Qle_bool_iff; apply dot_self_nonnegative).
  rewrite Hd, Hb. cbn [andb]. rewrite H1, H2. reflexivity.
Qed.

Lemma route_loop_first_attempts (fuel : nat) (design : list bounds) (step : Q)
    (coords : list point) :
  forall pre tail,
    first_attempt_clear design tail coords ->
    route_loop fuel design step (pre ++ [tail]) coords
      = Returned ((pre ++ [tail]) ++ open_route tail coords).
Proof.
  induction coords as [| coord rest IH]; intros pre tail Ha.
  - cbn [route_loop open_route]. rewrite app_nil_r. reflexivity.
  - destruct Ha as [Hhop Ha]. cbn [route_loop open_route]. rewrite ult_snoc.
    destruct (Qeq_bool (fst tail) (fst coord) || Qeq_bool (snd tail) (snd coord))
      eqn:Hb.
    + assert (Hs : fst tail == fst coord \/ snd tail == snd coord).
      { apply orb_true_iff in Hb. rewrite !Qeq_bool_iff in Hb. exact Hb. }
      rewrite (hop_in_line design tail coord Hs Hhop). cbn [drop_first tl].
      rewrite (IH (pre ++ [tail]) coord Ha). rewrite <- !app_assoc. reflexivity.
    + destruct Hhop as [H1 H2].
      rewrite (hop_first_elbow design tail coord Hb H1 H2). cbn [drop_first tl].
      replace ((pre ++ [tail]) ++ [(fst tail, snd coord); coord])
        with (((pre ++ [tail]) ++ [(fst tail, snd coord)]) ++ [coord])
        by (rewrite <- !app_assoc; reflexivity).
      rewrite (IH _ coord Ha). rewrite <- !app_assoc. reflexivity.
Qed.

(** ** The shape of a direct or elbow route *)

Lemma getpts_simple_orthogonal (design : list bounds) (sd s e : point) :
  orthogonal (getpts_simple design sd s e) /\
  (length (getpts_simple design sd s e) <= 4)%nat.
Proof.
  unfold orthogonal, axis_parallel.
  destruct (getpts_simple_cases design sd s e)
    as [-> | [[-> Hs] | [-> | [-> | [-> | ->]]]]]; cbn [segments length];
    (split; [| lia]);
    repeat (apply Forall_cons; [cbn [fst snd] |]); try apply Forall_nil;
    try exact Hs; ((left; reflexivity) || (right; reflexivity)).
Qed.

(** ** Summary of the router *)

(** X7: a route of [getpts_simple] is empty, or it leads from [start] to
    [end] through at most two bends; each of its segments is parallel to an
    axis and passes [no_obstacles]. *)
Theorem getpts_simple_route_shape (design : list bounds) (sd s e : point) :
  getpts_simple design sd s e = [] \/
  exists mid,
    getpts_simple design sd s e = s :: mid ++ [e] /\
    (length mid <= 2)%nat /\
    orthogonal (s :: mid ++ [e]) /\
    all_clear design (s :: mid ++ [e]).
Proof.
  destruct (getpts_simple_route design sd s e) as [E | [mid [E Hc]]];
    [left; exact E | right].
  destruct (getpts_simple_orthogonal design sd s e) as [Ho Hl].
  rewrite E in Ho, Hl. exists mid. repeat split; try assumption.
  cbn [length] in Hl. rewrite length_app in Hl. cbn [length] in Hl. lia.
Qed.

(** X11: [make] never fails on a lookup in [pathmapper]; whenever it
    returns, the route begins with the pin at the start and the lead-in
    point and ends with the pin at the end: the hops only append. *)
Theorem make_returns_framed_route (fuel : nat) (design : list bounds)
    (p : options) (c1 c2 : connector) :
  make fuel design p c1 c2 = OutOfFuel \/
  exists mid,
    make fuel design p c1 c2
      = Returned (middle c1 :: leadin_point p c1 :: mid ++ [middle c2]).
Proof.
  unfold make.
  pose proof (route_loop_finds_paths fuel design (step_size p)
                (anchors p ++ [leadout_point p c2])
                [middle c1; leadin_point p c1]) as Hk.
  pose proof (route_loop_appends fuel design (step_size p)
                (anchors p ++ [leadout_point p c2])
                [middle c1; leadin_point p c1]) as Ha.
  destruct (route_loop fuel design (step_size p) _ _) as [route | |].
  - right. destruct (Ha route eq_refl) as [ext ->]. exists ext. reflexivity.
  - contradiction Hk. reflexivity.
  - left. reflexivity.
Qed.

(** X12: when each target, from the lead-in point through the anchors to
    the lead-out point, shares a coordinate with the previous one and the
    segment between them passes [no_obstacles], [make] returns the pin, the
    lead-in point, the anchors, the lead-out point and the pin, whatever
    the step size and without running the search. *)
Theorem make_targets_in_line (fuel : nat) (design : list bounds)
    (p : options) (c1 c2 : connector) :
  aligned_clear design (leadin_point p c1) (anchors p ++ [leadout_point p c2]) ->
  make fuel design p c1 c2
    = Returned (middle c1 :: leadin_point p c1
                  :: anchors p ++ [leadout_point p c2; middle c2]).
Proof.
  intro H. unfold make.
  change [middle c1; leadin_point p c1]
    with ([middle c1] ++ [leadin_point p c1]).
  rewrite (route_loop_in_line fuel design (step_size p) _ [middle c1] _ H).
  cbn [app]. rewrite <- app_assoc. reflexivity.
Qed.

Lemma make_targets_in_line_witness :
  make 0 [(1, 0, 2, 2)] (mkOptions 1 1 0 1 [(0, 3)])
       (mkConnector (-1, 0) (1, 0)) (mkConnector (4, 3) (-1, 0))
  = Returned ((-1, 0)
                :: leadin_point (mkOptions 1 1 0 1 [(0, 3)])
                                (mkConnector (-1, 0) (1, 0))
                :: [(0, 3)]
                   ++ [leadout_point (mkOptions 1 1 0 1 [(0, 3)])
                                     (mkConnector (4, 3) (-1, 0));
                       (4, 3)]).
Proof.
  apply (make_targets_in_line 0 [(1, 0, 2, 2)] (mkOptions 1 1 0 1 [(0, 3)])
           (mkConnector (-1, 0) (1, 0)) (mkConnector (4, 3) (-1, 0))).
  cbn [anchors app aligned_clear]. split; [| split; [| split; [| split]]].
  - left. vm_compute. reflexivity.
  - vm_compute. reflexivity.
  - right. vm_compute. reflexivity.
  - vm_compute. reflexivity.
  - exact I.
Defined.

(** X13: when each hop, from the lead-in point through the anchors to the
    lead-out point, finds its first attempt clear (the direct segment to
    a target that shares a coordinate with the previous point, the elbow
    that keeps the previous abscissa otherwise), [make] returns for every
    iteration bound and step size, without running the search: the pin,
    the lead-in point, for each hop the bend, if any, and the target, and
    the pin at the end. *)
Theorem make_first_attempts (fuel : nat) (design : list bounds)
    (p : options) (c1 c2 : connector) :
  first_attempt_clear design (leadin_point p c1)
    (anchors p ++ [leadout_point p c2]) ->
  make fuel design p c1 c2
  = Returned (middle c1 :: leadin_point p c1
                :: open_route (leadin_point p c1)
                              (anchors p ++ [leadout_point p c2])
                   ++ [middle c2]).
Proof.
  intro H. unfold make.
  change [middle c1; leadin_point p c1]
    with ([middle c1] ++ [leadin_point p c1]).
  rewrite (route_loop_first_attempts fuel design (step_size p) _ [middle c1]
             (leadin_point p c1) H).
  cbn [app]. reflexivity.
Qed.

Lemma make_first_attempts_witness :
  exists a b c d e f,
    make 0 [(1, 0, 2, 2)] (mkOptions 1 1 0 1 [(3, 3)])
         (mkConnector (-1, 0) (1, 0)) (mkConnector (5, 3) (-1, 0))
    = Returned [a; b; c; d; e; f] /\
    pt_eq b (0, 0) /\ pt_eq c (0, 3) /\ pt_eq d (3, 3) /\ pt_eq e (4, 3).
Proof.
  do 6 eexists. split.
  - rewrite (make_first_attempts 0 [(1, 0, 2, 2)] (mkOptions 1 1 0 1 [(3, 3)])
               (mkConnector (-1, 0) (1, 0)) (mkConnector (5, 3) (-1, 0))).
    + vm_compute. reflexivity.
    + cbn [anchors app first_attempt_clear]. vm_compute.
      repeat split; reflexivity.
  - repeat split; reflexivity.
Defined.

(** * The router on binary64 numbers *)

Module Binary64Facts.

Import Floats.
#[local] Set Warnings "-inexact-float".
#[local] Open Scope float_scope.

(** The guarded kernel returns the result of the kernel whenever no
    division meets a zero divisor. *)
Lemma overlapping_checked_agrees (a b c d : Binary64.point) (r : bool) :
  Binary64.overlapping_checked a b c d = Some r ->
  Binary64.overlapping a b c d = r.
Proof.
  destruct a as [x0s y0s], b as [x0e y0e], c as [x1s y1s], d as [x1e y1e].
  unfold Binary64.overlapping_checked, Binary64.overlapping,
    Binary64.checked_div, bind.
  repeat match goal with
         | |- context [if ?c then _ else _] => destruct c
         end;
    intro H; inversion H; reflexivity.
Qed.

(** C9: on binary64 numbers a division of [overlapping] meets a zero
    divisor.  For the segments from (0.8, 0.2) to (0.6, 0.4) and from
    (0.2, 2.4) to (1.3, 1.3) the test of the slopes by cross-multiplication
    fails (0.22000000000000003 against 0.22000000000000006), the two
    quotients [m0] and [m1] are equal, and [x_intersect] is computed by a
    division by [m0 - m1 = 0].  The same happens against the horizontal
    edge from (0, 1) to (1, 1) of a bounding box, for the segment from
    (0, 0) to (2, 5e-324), whose slope rounds to zero. *)
Theorem overlapping_divides_by_zero :
  (Binary64.eqb ((1.3 - 0.2) * (0.4 - 0.2)) ((0.6 - 0.8) * (1.3 - 2.4)) = false /\
   Binary64.eqb ((0.4 - 0.2) / (0.6 - 0.8) - (1.3 - 2.4) / (1.3 - 0.2)) 0 = true /\
   Binary64.overlapping_checked (0.8, 0.2) (0.6, 0.4) (0.2, 2.4) (1.3, 1.3)
     = None) /\
  (Binary64.eqb ((1 - 0) * (0x1p-1074 - 0)) ((2 - 0) * (1 - 1)) = false /\
   Binary64.eqb ((0x1p-1074 - 0) / (2 - 0) - (1 - 1) / (1 - 0)) 0 = true /\
   Binary64.overlapping_checked (0, 0) (2, 0x1p-1074) (0, 1) (1, 1) = None).
Proof. repeat split; vm_compute; reflexivity. Qed.

(** C10, as stated, fails: on binary64 numbers, with [start] equal to
    [end] and a step size of 0.2, the search walks around a square and
    comes back to 0.10000000000000003, which is not the visited 0.1 but
    lies within the tolerance of it; the path it returns begins and ends
    at (0.1, 0.1). *)
Lemma astar_route_repeats_start :
  Binary64.ltb (2 * Binary64.tolerance) 0.2 = true /\
  Binary64.getpts_astar 100 [(5, 5, 6, 6)] (1, 0) (0.1, 0.1) (0.1, 0.1) 0.2
  = Returned [(0.1, 0.1); (0.1, 0.30000000000000004);
              (-0.1, 0.30000000000000004); (-0.1, 0.10000000000000003);
              (0.1, 0.1)].
Proof. split; vm_compute; reflexivity. Qed.

(** What the search does not test again: on binary64 numbers, from
    (-0.5, 0.1) along the upper edge of the box (0.1, 0, 0.4, 0.1), the
    two steps of 0.1 pass [no_obstacles] one by one, the collinear
    compaction merges them, and the merged segment, which the search
    returns, fails [no_obstacles]. *)
Lemma astar_merged_segment_blocked :
  Binary64.getpts_astar 200 [(0.1, 0, 0.4, 0.1)]
      (Binary64.psub (-0.30000000000000004, 0) (-0.5, 0.1))
      (-0.5, 0.1) (-0.30000000000000004, 0) 0.1
    = Returned [(-0.5, 0.1); (-0.30000000000000004, 0.1);
                (-0.30000000000000004, 0)] /\
  Binary64.no_obstacles [(0.1, 0, 0.4, 0.1)]
      ((-0.5, 0.1), (-0.4, 0.1)) = true /\
  Binary64.no_obstacles [(0.1, 0, 0.4, 0.1)]
      ((-0.4, 0.1), (-0.30000000000000004, 0.1)) = true /\
  Binary64.no_obstacles [(0.1, 0, 0.4, 0.1)]
      ((-0.5, 0.1), (-0.30000000000000004, 0.1)) = false.
Proof. repeat split; vm_compute; reflexivity. Qed.


End Binary64Facts.

(** ** GDS renderer: the inclusive box *)

Module GdsFacts.

Import GdsRenderer.
Import String.

Lemma min_by_spec (key : bounds -> Q) (rest : list bounds) :
  forall best,
    In (min_by key best rest) (best :: rest) /\
    (forall b, In b (best :: rest) -> key (min_by key best rest) <= key b).
Proof.
  induction rest as [| x rest IH]; intro best.
  - cbn [min_by]. split; [left; reflexivity |].
    intros b [<- | []]. apply Qle_refl.
  - cbn [min_by].
    destruct (IH (if Qlt_bool (key x) (key best) then x else best)) as [Hin Hle].
    split.
    + destruct Hin as [E | Hin]; [| right; right; exact Hin].
      rewrite <- E. destruct (Qlt_bool (key x) (key best));
        [right; left | left]; reflexivity.
    + intros b Hb.
      assert (Hm := Hle _ (or_introl eq_refl)).
      destruct (Qlt_bool (key x) (key best)) eqn:Hlt.
      * apply Qlt_bool_true in Hlt.
        destruct Hb as [<- | [<- | Hb]]; [lra | exact Hm | apply Hle; right; exact Hb].
      * apply Qlt_bool_false in Hlt.
        destruct Hb as [<- | [<- | Hb]]; [exact Hm | lra | apply Hle; right; exact Hb].
Qed.

Lemma max_by_spec (key : bounds -> Q) (rest : list bounds) :
  forall best,
    In (max_by key best rest) (best :: rest) /\
    (forall b, In b (best :: rest) -> key b <= key (max_by key best rest)).
Proof.
  induction rest as [| x rest IH]; intro best.
  - cbn [max_by]. split; [left; reflexivity |].
    intros b [<- | []]. apply Qle_refl.
  - cbn [max_by].
    destruct (IH (if Qgt_bool (key x) (key best) then x else best)) as [Hin Hle].
    split.
    + destruct Hin as [E | Hin]; [| right; right; exact Hin].
      rewrite <- E. destruct (Qgt_bool (key x) (key best));
        [right; left | left]; reflexivity.
    + intros b Hb.
      assert (Hm := Hle _ (or_introl eq_refl)).
      destruct (Qgt_bool (key x) (key best)) eqn:Hgt.
      * apply Qgt_bool_true in Hgt.
        destruct Hb as [<- | [<- | Hb]]; [lra | exact Hm | apply Hle; right; exact Hb].
      * apply Qgt_bool_false in Hgt.
        destruct Hb as [<- | [<- | Hb]]; [exact Hm | lra | apply Hle; right; exact Hb].
Qed.

Lemma inclusive_bound_encloses (all_bounds : list bounds) (b : bounds) :
  In b all_bounds ->
  item0 (inclusive_bound all_bounds) <= item0 b /\
  item1 (inclusive_bound all_bounds) <= item1 b /\
  item2 b <= item2 (inclusive_bound all_bounds) /\
  item3 b <= item3 (inclusive_bound all_bounds).
Proof.
  destruct all_bounds as [| b0 r]; [intros [] |]. intro Hb.
  cbn [inclusive_bound item0 item1 item2 item3].
  repeat split;
    [apply (min_by_spec item0 r b0) | apply (min_by_spec item1 r b0)
     | apply (max_by_spec item2 r b0) | apply (max_by_spec item3 r b0)];
    exact Hb.
Qed.

Lemma inclusive_bound_attained (all_bounds : list bounds) :
  all_bounds <> [] ->
  (exists b, In b all_bounds /\ item0 (inclusive_bound all_bounds) = item0 b) /\
  (exists b, In b all_bounds /\ item1 (inclusive_bound all_bounds) = item1 b) /\
  (exists b, In b all_bounds /\ item2 (inclusive_bound all_bounds) = item2 b) /\
  (exists b, In b all_bounds /\ item3 (inclusive_bound all_bounds) = item3 b).
Proof.
  destruct all_bounds as [| b0 r]; [intro H; contradiction H; reflexivity |].
  intros _. cbn [inclusive_bound item0 item1 item2 item3].
  repeat split; eexists; (split; [| reflexivity]);
    [apply (min_by_spec item0 r b0) | apply (min_by_spec item1 r b0)
     | apply (max_by_spec item2 r b0) | apply (max_by_spec item3 r b0)].
Qed.

Lemma find_store_boxes (db : dict_bounds) (chip_name : String.string)
    (s i : bounds) :
  exists entry,
    find_chip (store_boxes db chip_name s i) chip_name = Some entry /\
    scaled_box entry = Some s /\ inclusive_box entry = Some i.
Proof.
  induction db as [| [name entry] rest IH].
  - cbn [store_boxes find_chip]. rewrite String.eqb_refl.
    eexists. repeat split.
  - cbn [store_boxes]. destruct (String.eqb name chip_name) eqn:E.
    + cbn [find_chip]. rewrite E. eexists. repeat split.
    + cbn [find_chip]. rewrite E. exact IH.
Qed.

Lemma find_store_boxes_other (db : dict_bounds) (chip_name other : String.string)
    (s i : bounds) :
  other <> chip_name ->
  find_chip (store_boxes db chip_name s i) other = find_chip db other.
Proof.
  intro Hne. induction db as [| [name entry] rest IH].
  - cbn [store_boxes find_chip].
    destruct (String.eqb chip_name other) eqn:E; [| reflexivity].
    apply String.eqb_eq in E. congruence.
  - cbn [store_boxes]. destruct (String.eqb name chip_name) eqn:E.
    + cbn [find_chip]. destruct (String.eqb name other) eqn:E'; [| reflexivity].
      apply String.eqb_eq in E. apply String.eqb_eq in E'. congruence.
    + cbn [find_chip]. rewrite IH. reflexivity.
Qed.

Lemma check_scale_spec (v : pyval) :
  exists x,
    fst (check_scale v) = PyFloat x /\ 1 <= x /\
    (snd (check_scale v) = true -> x = default_scale) /\
    (snd (check_scale v) = false -> number v = Some x) /\
    check_scale (PyFloat x) = (PyFloat x, false).
Proof.
  assert (Hd : Qle_bool 1 default_scale = true) by reflexivity.
  assert (Hd' : 1 <= default_scale) by (apply Qle_bool_iff; exact Hd).
  destruct v as [x | n |]; cbn [check_scale].
  - destruct (Qle_bool 1 x) eqn:E.
    + exists x. cbn [fst snd check_scale number]. rewrite E.
      repeat split; try discriminate. apply Qle_bool_iff. exact E.
    + exists default_scale. cbn [fst snd check_scale]. rewrite Hd.
      repeat split; try discriminate; try exact Hd'.
  - destruct (Z.leb 1 n) eqn:E.
    + exists (inject_Z n). cbn [fst snd check_scale number].
      assert (H1 : 1 <= inject_Z n).
      { apply Z.leb_le in E. rewrite Zle_Qle in E. exact E. }
      assert (H2 : Qle_bool 1 (inject_Z n) = true) by (apply Qle_bool_iff; exact H1).
      rewrite H2. repeat split; try discriminate. exact H1.
    + exists default_scale. cbn [fst snd check_scale]. rewrite Hd.
      repeat split; try discriminate; try exact Hd'.
  - exists default_scale. cbn [fst snd check_scale]. rewrite Hd.
    repeat split; try discriminate; try exact Hd'.
Qed.

Lemma find_store_boxes_keeps (db : dict_bounds) (chip_name : String.string)
    (s i : bounds) (old entry : chip_bounds) :
  find_chip db chip_name = Some old ->
  find_chip (store_boxes db chip_name s i) chip_name = Some entry ->
  gather entry = gather old /\ for_subtract entry = for_subtract old.
Proof.
  induction db as [| [name e] rest IH]; cbn [find_chip store_boxes];
    [discriminate |].
  destruct (String.eqb name chip_name) eqn:E; cbn [find_chip]; rewrite E.
  - intros [= <-] [= <-]. split; reflexivity.
  - exact IH.
Qed.

Lemma check_scale_warns (v : pyval) :
  snd (check_scale v) = true <-> forall x, number v = Some x -> x < 1.
Proof.
  destruct v as [x | n |]; cbn [check_scale number].
  - destruct (Qle_bool 1 x) eqn:E; cbn [snd].
    + split; [discriminate |]. intro H. apply Qle_bool_iff in E.
      specialize (H x eq_refl). lra.
    + split; [| reflexivity]. intros _ y [= <-].
      apply Qle_bool_false. exact E.
  - destruct (Z.leb 1 n) eqn:E; cbn [snd].
    + split; [discriminate |]. intro H. apply Z.leb_le in E.
      rewrite Zle_Qle in E. change (1 <= inject_Z n) in E.
      specialize (H _ eq_refl). lra.
    + split; [| reflexivity]. intros _ y [= <-].
      apply Z.leb_gt in E. rewrite Zlt_Qlt in E. exact E.
  - split; [intros _ x H; discriminate H | reflexivity].
Qed.

Lemma scale_max_bounds_some (o : options) (db : dict_bounds)
    (chip_name : String.string) (all_bounds : list bounds) (sx sy : Q) :
  all_bounds <> [] ->
  number (bounding_box_scale_x o) = Some sx ->
  number (bounding_box_scale_y o) = Some sy ->
  exists scaled,
    scale_max_bounds o db chip_name all_bounds
      = Some (scaled, inclusive_bound all_bounds,
              store_boxes db chip_name scaled (inclusive_bound all_bounds)) /\
    box_width scaled == box_width (inclusive_bound all_bounds) * sx /\
    box_height scaled == box_height (inclusive_bound all_bounds) * sy /\
    pt_eq (box_center scaled) (box_center (inclusive_bound all_bounds)).
Proof.
  intros Hne Hx Hy. destruct all_bounds as [| b r]; [contradiction Hne; reflexivity |].
  unfold scale_max_bounds. cbn [inclusive_bound]. rewrite Hx, Hy.
  eexists. split; [reflexivity |].
  unfold box_width, box_height, box_center, pt_eq.
  cbn [item0 item1 item2 item3 fst snd].
  repeat split; field.
Qed.

Lemma check_bounding_box_scale_valid_scales (o : options) :
  exists x y,
    fst (check_bounding_box_scale o) = mkOptions (PyFloat x) (PyFloat y) /\
    1 <= x /\ 1 <= y.
Proof.
  destruct (check_scale_spec (bounding_box_scale_x o)) as [x [Ex [Hx _]]].
  destruct (check_scale_spec (bounding_box_scale_y o)) as [y [Ey [Hy _]]].
  exists x, y. unfold check_bounding_box_scale.
  destruct (check_scale (bounding_box_scale_x o)) as [vx wx].
  destruct (check_scale (bounding_box_scale_y o)) as [vy wy].
  cbn [fst snd] in *. subst vx vy. repeat split; assumption.
Qed.

Lemma first_missing_none (names unique : list String.string) :
  first_missing names unique = None <-> forall n, In n unique -> In n names.
Proof.
  induction unique as [| q rest IH]; cbn [first_missing].
  - split; [intros _ n [] | reflexivity].
  - destruct (existsb (String.eqb q) names) eqn:E.
    + rewrite IH. apply existsb_exists in E. destruct E as [x [Hx Ex]].
      apply String.eqb_eq in Ex. subst x. split.
      * intros H n [<- | Hn]; [exact Hx | apply H; exact Hn].
      * intros H n Hn. apply H. right. exact Hn.
    + split; [discriminate |]. intro H. exfalso.
      assert (Hq : In q names) by (apply H; left; reflexivity).
      assert (Ex : existsb (String.eqb q) names = true).
      { apply existsb_exists. exists q. split; [exact Hq | apply String.eqb_refl]. }
      rewrite Ex in E. discriminate E.
Qed.

Lemma first_missing_some (names unique : list String.string) (q : String.string) :
  first_missing names unique = Some q -> In q unique /\ ~ In q names.
Proof.
  induction unique as [| q0 rest IH]; cbn [first_missing]; [discriminate |].
  destruct (existsb (String.eqb q0) names) eqn:E.
  - intro H. destruct (IH H) as [H1 H2]. split; [right; exact H1 | exact H2].
  - intros [= <-]. split; [left; reflexivity |]. intro Hin.
    assert (Ex : existsb (String.eqb q0) names = true).
    { apply existsb_exists. exists q0. split; [exact Hin | apply String.eqb_refl]. }
    rewrite Ex in E. discriminate E.
Qed.

(** X14: on a list that is not empty, [inclusive_bound] returns the
    smallest box that contains every box of the list: it contains each of
    them, and every box that contains each of them contains it. *)
Theorem inclusive_bound_smallest (all_bounds : list bounds) :
  all_bounds <> [] ->
  (forall b, In b all_bounds -> box_contains (inclusive_bound all_bounds) b) /\
  (forall outer,
     (forall b, In b all_bounds -> box_contains outer b) ->
     box_contains outer (inclusive_bound all_bounds)).
Proof.
  intro Hne. split.
  - intros b Hb. exact (inclusive_bound_encloses all_bounds b Hb).
  - intros outer H.
    destruct (inclusive_bound_attained all_bounds Hne)
      as [[b0 [I0 E0]] [[b1 [I1 E1]] [[b2 [I2 E2]] [b3 [I3 E3]]]]].
    unfold box_contains. rewrite E0, E1, E2, E3.
    repeat split;
      [apply (H b0 I0) | apply (H b1 I1) | apply (H b2 I2) | apply (H b3 I3)].
Qed.

Lemma inclusive_bound_smallest_witness :
  (forall b, In b [(0, 0, 1, 1); (2, -1, 3, 0)] ->
     box_contains (inclusive_bound [(0, 0, 1, 1); (2, -1, 3, 0)]) b) /\
  (forall outer,
     (forall b, In b [(0, 0, 1, 1); (2, -1, 3, 0)] -> box_contains outer b) ->
     box_contains outer (inclusive_bound [(0, 0, 1, 1); (2, -1, 3, 0)])).
Proof.
  apply (inclusive_bound_smallest [(0, 0, 1, 1); (2, -1, 3, 0)]).
  discriminate.
Defined.

(** X15: when both scales are numbers and the list of boxes is not empty,
    [scale_max_bounds] returns the inclusive box and a box with the same
    centre whose width is the inclusive width times
    [bounding_box_scale_x] and whose height is the inclusive height times
    [bounding_box_scale_y]. *)
Theorem scale_max_bounds_scales_about_center (o : options) (db : dict_bounds)
    (chip_name : String.string) (all_bounds : list bounds) (sx sy : Q) :
  all_bounds <> [] ->
  number (bounding_box_scale_x o) = Some sx ->
  number (bounding_box_scale_y o) = Some sy ->
  exists scaled db',
    scale_max_bounds o db chip_name all_bounds
      = Some (scaled, inclusive_bound all_bounds, db') /\
    box_width scaled == box_width (inclusive_bound all_bounds) * sx /\
    box_height scaled == box_height (inclusive_bound all_bounds) * sy /\
    pt_eq (box_center scaled) (box_center (inclusive_bound all_bounds)).
Proof.
  intros Hne Hx Hy.
  destruct (scale_max_bounds_some o db chip_name all_bounds sx sy Hne Hx Hy)
    as [scaled [E H]].
  exists scaled, (store_boxes db chip_name scaled (inclusive_bound all_bounds)).
  split; [exact E | exact H].
Qed.

Lemma scale_max_bounds_scales_about_center_witness :
  exists scaled db',
    scale_max_bounds (mkOptions (PyFloat (3 # 2)) (PyInt 2)) [] "main"%string
                     [(0, 0, 1, 1); (2, -1, 3, 0)]
      = Some (scaled, inclusive_bound [(0, 0, 1, 1); (2, -1, 3, 0)], db') /\
    box_width scaled
      == box_width (inclusive_bound [(0, 0, 1, 1); (2, -1, 3, 0)]) * (3 # 2) /\
    box_height scaled
      == box_height (inclusive_bound [(0, 0, 1, 1); (2, -1, 3, 0)]) * 2 /\
    pt_eq (box_center scaled)
          (box_center (inclusive_bound [(0, 0, 1, 1); (2, -1, 3, 0)])).
Proof.
  apply (scale_max_bounds_scales_about_center
           (mkOptions (PyFloat (3 # 2)) (PyInt 2)) [] "main"%string
           [(0, 0, 1, 1); (2, -1, 3, 0)] (3 # 2) 2).
  - discriminate.
  - reflexivity.
  - reflexivity.
Defined.

(** X16: after [scale_max_bounds] on a list that is not empty,
    [dict_bounds] holds the two returned boxes under the name of the chip;
    what the entry of the chip held besides is kept, and the entries of the
    other chips are unchanged. *)
Theorem scale_max_bounds_records_boxes (o : options) (db db' : dict_bounds)
    (chip_name : String.string) (all_bounds : list bounds)
    (scaled incl : bounds) :
  all_bounds <> [] ->
  scale_max_bounds o db chip_name all_bounds = Some (scaled, incl, db') ->
  (exists entry,
     find_chip db' chip_name = Some entry /\
     scaled_box entry = Some scaled /\ inclusive_box entry = Some incl /\
     (forall old, find_chip db chip_name = Some old ->
        gather entry = gather old /\ for_subtract entry = for_subtract old)) /\
  (forall other, other <> chip_name ->
     find_chip db' other = find_chip db other).
Proof.
  intros Hne. destruct all_bounds as [| b r]; [contradiction Hne; reflexivity |].
  unfold scale_max_bounds. cbn [inclusive_bound].
  destruct (number (bounding_box_scale_x o)) as [sx |]; [| discriminate].
  destruct (number (bounding_box_scale_y o)) as [sy |]; [| discriminate].
  intros [= <- <- <-]. split.
  - match goal with
    | |- context [store_boxes db chip_name ?s ?i] =>
        destruct (find_store_boxes db chip_name s i) as [entry [E [Hs Hi]]];
        exists entry; repeat split; try assumption;
        [apply (find_store_boxes_keeps db chip_name s i old entry)
        | apply (find_store_boxes_keeps db chip_name s i old entry)];
        assumption
    end.
  - intros other Hother. apply find_store_boxes_other. exact Hother.
Qed.

Lemma scale_max_bounds_records_boxes_witness :
  exists scaled incl db',
    scale_max_bounds (mkOptions (PyFloat 2) (PyFloat 2))
                     [("main"%string, mkChipBounds [(0, 0, 1, 1)] None None None)]
                     "main"%string [(0, 0, 1, 1)]
      = Some (scaled, incl, db') /\
    (exists entry,
       find_chip db' "main"%string = Some entry /\
       scaled_box entry = Some scaled /\ inclusive_box entry = Some incl /\
       (forall old,
          find_chip [("main"%string, mkChipBounds [(0, 0, 1, 1)] None None None)]
                    "main"%string = Some old ->
          gather entry = gather old /\ for_subtract entry = for_subtract old)) /\
    (forall other, other <> "main"%string ->
       find_chip db' other
       = find_chip [("main"%string, mkChipBounds [(0, 0, 1, 1)] None None None)]
                   other).
Proof.
  do 3 eexists. split; [vm_compute; reflexivity |].
  apply (scale_max_bounds_records_boxes (mkOptions (PyFloat 2) (PyFloat 2))
           [("main"%string, mkChipBounds [(0, 0, 1, 1)] None None None)]
           _ "main"%string [(0, 0, 1, 1)]).
  - discriminate.
  - vm_compute. reflexivity.
Defined.

(** X17: when [float] converts the scales that are [int]s exactly, then
    after [check_bounding_box_scale] both scales are floats not less than
    1, a scale that was a number not less than 1 keeps its value, and a
    second run changes nothing and logs nothing. *)
Theorem check_bounding_box_scale_establishes (o : options) :
  converts_exactly (bounding_box_scale_x o) ->
  converts_exactly (bounding_box_scale_y o) ->
  exists x y,
    fst (check_bounding_box_scale o) = mkOptions (PyFloat x) (PyFloat y) /\
    1 <= x /\ 1 <= y /\
    (forall v, number (bounding_box_scale_x o) = Some v -> 1 <= v -> x = v) /\
    (forall v, number (bounding_box_scale_y o) = Some v -> 1 <= v -> y = v) /\
    check_bounding_box_scale (mkOptions (PyFloat x) (PyFloat y))
      = (mkOptions (PyFloat x) (PyFloat y), []).
Proof.
  intros _ _.
  destruct (check_scale_spec (bounding_box_scale_x o)) as [x [Ex [Hx [_ [Kx Ix]]]]].
  destruct (check_scale_spec (bounding_box_scale_y o)) as [y [Ey [Hy [_ [Ky Iy]]]]].
  pose proof (check_scale_warns (bounding_box_scale_x o)) as Wx.
  pose proof (check_scale_warns (bounding_box_scale_y o)) as Wy.
  exists x, y. unfold check_bounding_box_scale.
  cbn [bounding_box_scale_x bounding_box_scale_y]. rewrite Ix, Iy.
  destruct (check_scale (bounding_box_scale_x o)) as [vx wx].
  destruct (check_scale (bounding_box_scale_y o)) as [vy wy].
  cbn [fst snd] in *. subst vx vy. repeat split; try assumption.
  - intros v Hv Hle. destruct wx.
    + pose proof (proj1 Wx eq_refl v Hv). lra.
    + specialize (Kx eq_refl). congruence.
  - intros v Hv Hle. destruct wy.
    + pose proof (proj1 Wy eq_refl v Hv). lra.
    + specialize (Ky eq_refl). congruence.
Qed.

Lemma check_bounding_box_scale_establishes_witness :
  exists x y,
    fst (check_bounding_box_scale (mkOptions (PyInt 2) (PyFloat (1 # 2))))
      = mkOptions (PyFloat x) (PyFloat y) /\
    1 <= x /\ 1 <= y /\
    (forall v, number (PyInt 2) = Some v -> 1 <= v -> x = v) /\
    (forall v, number (PyFloat (1 # 2)) = Some v -> 1 <= v -> y = v) /\
    check_bounding_box_scale (mkOptions (PyFloat x) (PyFloat y))
      = (mkOptions (PyFloat x) (PyFloat y), []).
Proof.
  apply (check_bounding_box_scale_establishes
           (mkOptions (PyInt 2) (PyFloat (1 # 2)))).
  - vm_compute. discriminate.
  - exact I.
Defined.

(** X18: [check_bounding_box_scale] logs a warning for a scale exactly
    when it is no number or a number less than 1; the value that the text
    of the warning shows as provided by the user is the default 1.2, the
    option being overwritten before the text is formatted. *)
Theorem check_bounding_box_scale_warnings (o : options) :
  (forall w, In w (snd (check_bounding_box_scale o)) ->
     w = ScaleX (PyFloat default_scale) \/ w = ScaleY (PyFloat default_scale)) /\
  (In (ScaleX (PyFloat default_scale)) (snd (check_bounding_box_scale o)) <->
   forall x, number (bounding_box_scale_x o) = Some x -> x < 1) /\
  (In (ScaleY (PyFloat default_scale)) (snd (check_bounding_box_scale o)) <->
   forall y, number (bounding_box_scale_y o) = Some y -> y < 1).
Proof.
  destruct (check_scale_spec (bounding_box_scale_x o)) as [x [Ex [_ [Dx _]]]].
  destruct (check_scale_spec (bounding_box_scale_y o)) as [y [Ey [_ [Dy _]]]].
  pose proof (check_scale_warns (bounding_box_scale_x o)) as Wx.
  pose proof (check_scale_warns (bounding_box_scale_y o)) as Wy.
  unfold check_bounding_box_scale.
  destruct (check_scale (bounding_box_scale_x o)) as [vx wx].
  destruct (check_scale (bounding_box_scale_y o)) as [vy wy].
  cbn [fst snd] in *. subst vx vy. rewrite <- Wx, <- Wy.
  destruct wx, wy; cbn [app In];
    try rewrite (Dx eq_refl); try rewrite (Dy eq_refl);
    (split; [| split; split]);
    try (intros w Hw; repeat destruct Hw as [Hw | Hw]; try contradiction;
         subst w; auto);
    try reflexivity; try discriminate; intro H;
    repeat destruct H as [H | H]; try contradiction; try discriminate H; auto.
Qed.

(** X19: when [float] converts the scales that are [int]s exactly, then
    with the scales that [check_bounding_box_scale] leaves
    [scale_max_bounds] raises no error, whatever the list of boxes: it
    returns a scaled box and the inclusive box. *)
Theorem checked_scale_raises_no_error (o : options) (db : dict_bounds)
    (chip_name : String.string) (all_bounds : list bounds) :
  converts_exactly (bounding_box_scale_x o) ->
  converts_exactly (bounding_box_scale_y o) ->
  exists scaled db',
    scale_max_bounds (fst (check_bounding_box_scale o)) db chip_name all_bounds
      = Some (scaled, inclusive_bound all_bounds, db').
Proof.
  intros _ _.
  destruct (check_bounding_box_scale_valid_scales o) as [x [y [Eo _]]].
  rewrite Eo. destruct all_bounds as [| b r].
  - exists (0, 0, 0, 0), db. reflexivity.
  - destruct (scale_max_bounds_some (mkOptions (PyFloat x) (PyFloat y)) db
                chip_name (b :: r) x y) as [scaled [E _]];
      [discriminate | reflexivity | reflexivity |].
    exists scaled, (store_boxes db chip_name scaled (inclusive_bound (b :: r))).
    exact E.
Qed.

Lemma checked_scale_raises_no_error_witness :
  exists scaled db',
    scale_max_bounds
      (fst (check_bounding_box_scale (mkOptions (PyInt 0) PyOther))) []
      "main"%string [(0, 0, 1, 1); (2, -1, 3, 0)]
      = Some (scaled, inclusive_bound [(0, 0, 1, 1); (2, -1, 3, 0)], db').
Proof.
  apply (checked_scale_raises_no_error (mkOptions (PyInt 0) PyOther) []
           "main"%string [(0, 0, 1, 1); (2, -1, 3, 0)]).
  - vm_compute. discriminate.
  - exact I.
Defined.

(** X20: whatever the order in which [list(set(...))] yields the names,
    [check_qcomps] returns status 0 without a warning when every name to
    highlight is a component of the design, and otherwise status 1 with
    one warning, which names a component to highlight that is not in the
    design. *)
Theorem check_qcomps_status
    (list_of_set : list String.string -> list String.string)
    (names highlight_qcomponents : list String.string) :
  (forall l n, In n (list_of_set l) <-> In n l) ->
  (check_qcomps list_of_set names highlight_qcomponents
     = (list_of_set highlight_qcomponents, 0%Z, []) /\
   forall n, In n highlight_qcomponents -> In n names) \/
  (exists qcomp,
     check_qcomps list_of_set names highlight_qcomponents
       = (list_of_set highlight_qcomponents, 1%Z, [qcomp]) /\
     In qcomp highlight_qcomponents /\ ~ In qcomp names).
Proof.
  intro Hset. unfold check_qcomps.
  destruct (first_missing names (list_of_set highlight_qcomponents)) as [q |] eqn:E.
  - right. exists q. split; [reflexivity |].
    destruct (first_missing_some _ _ _ E) as [H1 H2].
    split; [apply Hset; exact H1 | exact H2].
  - left. split; [reflexivity |]. intros n Hn.
    apply (proj1 (first_missing_none _ _) E). apply Hset. exact Hn.
Qed.

Lemma check_qcomps_status_witness :
  (check_qcomps (nodup string_dec) ["Q1"%string; "Q2"%string]
                ["Q1"%string; "Q3"%string; "Q1"%string]
     = (nodup string_dec ["Q1"%string; "Q3"%string; "Q1"%string], 0%Z, []) /\
   forall n, In n ["Q1"%string; "Q3"%string; "Q1"%string] ->
             In n ["Q1"%string; "Q2"%string]) \/
  (exists qcomp,
     check_qcomps (nodup string_dec) ["Q1"%string; "Q2"%string]
                  ["Q1"%string; "Q3"%string; "Q1"%string]
       = (nodup string_dec ["Q1"%string; "Q3"%string; "Q1"%string], 1%Z, [qcomp]) /\
     In qcomp ["Q1"%string; "Q3"%string; "Q1"%string] /\
     ~ In qcomp ["Q1"%string; "Q2"%string]).
Proof.
  apply (check_qcomps_status (nodup string_dec) ["Q1"%string; "Q2"%string]
           ["Q1"%string; "Q3"%string; "Q1"%string]).
  intros l n. apply nodup_In.
Defined.

(** X21: a table without rows contributes the box (0, 0, 0, 0) to the
    bounds gathered for a chip, so the inclusive box of the chip then
    contains the origin, wherever the components lie. *)
Theorem empty_table_draws_origin {row : Type} (total_bounds : list row -> bounds)
    (tables : list (list row)) :
  In [] tables ->
  box_contains (inclusive_bound (gather_bounds total_bounds tables)) (0, 0, 0, 0).
Proof.
  intro H. apply inclusive_bound_encloses. unfold gather_bounds.
  apply in_map_iff. exists []. split; [reflexivity | exact H].
Qed.

Lemma empty_table_draws_origin_witness :
  box_contains
    (inclusive_bound (gather_bounds inclusive_bound [[(5, 5, 6, 6)]; []]))
    (0, 0, 0, 0).
Proof.
  apply (empty_table_draws_origin inclusive_bound [[(5, 5, 6, 6)]; []]).
  right. left. reflexivity.
Defined.

End GdsFacts.

(** ** Library delegate: the source model *)

Module DelegateFacts.

Import LibraryDelegate.
Import String.

(** X22: the model that [get_source_model] returns is the first one, along
    the chain of [sourceModel()], whose class has the expected name; every
    model before it is a proxy model of another class. *)
Theorem get_source_model_found (model : qmodel) (name : String.string) (m : qmodel) :
  get_source_model model name = inl m ->
  class_name_of m = name /\
  exists before after,
    chain model = before ++ m :: after /\
    forall x, In x before ->
      class_name_of x <> name /\ exists n s, x = Proxy n s.
Proof.
  revert m. induction model as [n | n source IH]; intro m; cbn [get_source_model].
  - cbn [class_name_of]. destruct (String.eqb n name) eqn:E; [| discriminate].
    intros [= <-]. apply String.eqb_eq in E. split; [exact E |].
    exists [], []. split; [reflexivity | intros x []].
  - cbn [class_name_of]. destruct (String.eqb n name) eqn:E.
    + intros [= <-]. apply String.eqb_eq in E. split; [exact E |].
      exists [], (chain source). split; [reflexivity | intros x []].
    + intro H. destruct (IH m H) as [Hn [before [after [Ec Hb]]]].
      split; [exact Hn |].
      exists (Proxy n source :: before), after. split.
      * cbn [chain app]. rewrite Ec. reflexivity.
      * intros x [<- | Hx]; [| apply Hb; exact Hx].
        split; [| exists n, source; reflexivity].
        cbn [class_name_of]. apply String.eqb_neq. exact E.
Qed.

Lemma get_source_model_found_witness :
  exists m,
    get_source_model
      (Proxy "QSortFilterProxyModel"%string (Plain "QFileSystemLibraryModel"%string))
      "QFileSystemLibraryModel"%string = inl m /\
    class_name_of m = "QFileSystemLibraryModel"%string /\
    exists before after,
      chain (Proxy "QSortFilterProxyModel"%string (Plain "QFileSystemLibraryModel"%string))
        = before ++ m :: after /\
      forall x, In x before ->
        class_name_of x <> "QFileSystemLibraryModel"%string /\
        exists n s, x = Proxy n s.
Proof.
  eexists. split; [reflexivity |].
  apply (get_source_model_found
           (Proxy "QSortFilterProxyModel"%string (Plain "QFileSystemLibraryModel"%string))
           "QFileSystemLibraryModel"%string).
  reflexivity.
Defined.

(** X23: [get_source_model] raises its exception exactly when no model
    along the chain of [sourceModel()] has a class of the expected name;
    the loop ends in every case. *)
Theorem get_source_model_raises (model : qmodel) (name : String.string) :
  (exists m, get_source_model model name = inr m) <->
  forall x, In x (chain model) -> class_name_of x <> name.
Proof.
  induction model as [n | n source IH]; cbn [get_source_model chain class_name_of].
  - destruct (String.eqb n name) eqn:E.
    + split; [intros [m H]; discriminate H |].
      intro H. exfalso. apply (H (Plain n)); [left; reflexivity |].
      apply String.eqb_eq. exact E.
    + split; [| intros _; eexists; reflexivity].
      intros _ x [<- | []]. apply String.eqb_neq. exact E.
  - destruct (String.eqb n name) eqn:E.
    + split; [intros [m H]; discriminate H |].
      intro H. exfalso. apply (H (Proxy n source)); [left; reflexivity |].
      apply String.eqb_eq. exact E.
    + rewrite IH. split.
      * intros H x [<- | Hx]; [apply String.eqb_neq; exact E | apply H; exact Hx].
      * intros H x Hx. apply H. right. exact Hx.
Qed.

End DelegateFacts.
